(** * Space Shooter: the game logic of [space_shooter.py], embedded and verified

    The Python program is a pygame arcade game.  Its logic works on Python
    integers (score, level, lives, millisecond timestamps) and on pygame
    floating rectangles.  Integers are modelled by [Z].  Coordinates are
    modelled by exact rationals [Q]: every float is a rational, comparisons
    of floats with integers are exact in Python, and the arithmetic on
    coordinates is taken without rounding.

    What pygame computes from pixels (opacity masks, the size of a rotated
    image, the normalisation of a vector) is taken as an interface, the class
    [Pygame] below.  Drawing and sound are output only and are left out. *)

From Stdlib Require Import ZArith QArith Qround List Bool Lia Lqa.
Import ListNotations.

Open Scope Z_scope.

(** ** Game constants and configuration (lines 26-53) *)

Definition WINDOW_WIDTH : Z := 1280.
Definition WINDOW_HEIGHT : Z := 720.
Definition FPS : Z := 120.

Definition PLAYER_SPEED : Z := 600.
Definition INITIAL_LASER_COOLDOWN : Z := 400.

Definition SURVIVAL_POINTS_PER_SECOND : Z := 10.
Definition METEOR_DESTRUCTION_POINTS : Z := 20.

Definition LEVEL_THRESHOLDS : list Z :=
  [0; 300; 600; 900; 1200; 1500; 1800; 2100].
Definition MAX_LEVEL : Z := Z.of_nat (length LEVEL_THRESHOLDS).

Definition BASE_METEOR_SPAWN_RATE : Z := 700.
Definition METEOR_SPAWN_RATE_DECREASE : Z := 100.
Definition MIN_METEOR_SPAWN_RATE : Z := 0.

Definition LASER_COOLDOWN_INCREASE_LEVEL : Z := 3.
Definition LASER_COOLDOWN_INCREASE : Z := 100.
Definition MAX_LASER_COOLDOWN : Z := 800.

Definition INITIAL_LIVES : Z := 3.

(** Number of explosion frames loaded by [range(21)] (lines 80-83). *)
Definition EXPLOSION_FRAMES : Z := 21.

(** ** Difficulty functions (lines 359-376) *)

(** The [for i, threshold in enumerate(...)] loop of [get_current_level]:
    [Some i] when the loop returns [i], [None] when it runs to the end. *)
Fixpoint scan_thresholds (score : Z) (i : Z) (thresholds : list Z) : option Z :=
  match thresholds with
  | [] => None
  | threshold :: rest =>
      if score <? threshold then Some i
      else scan_thresholds score (i + 1) rest
  end.

(** [get_current_level] over an arbitrary threshold list. *)
Definition level_for (thresholds : list Z) (score : Z) : Z :=
  match scan_thresholds score 0 thresholds with
  | Some i => i
  | None => Z.of_nat (length thresholds)
  end.

Definition get_current_level (score : Z) : Z :=
  level_for LEVEL_THRESHOLDS score.

Definition calculate_meteor_spawn_time (level : Z) : Z :=
  let spawn_time :=
    BASE_METEOR_SPAWN_RATE - level * METEOR_SPAWN_RATE_DECREASE in
  Z.max spawn_time MIN_METEOR_SPAWN_RATE.

(** The formula the specification gives for the spawn interval. *)
Definition spec_spawn_interval (level : Z) : Z :=
  Z.max (BASE_METEOR_SPAWN_RATE - (level - 1) * METEOR_SPAWN_RATE_DECREASE)
        MIN_METEOR_SPAWN_RATE.

(** The formula the specification gives for the weapon cooldown. *)
Definition spec_weapon_cooldown (level : Z) : Z :=
  if level <? LASER_COOLDOWN_INCREASE_LEVEL then INITIAL_LASER_COOLDOWN
  else Z.min (INITIAL_LASER_COOLDOWN
              + (level - LASER_COOLDOWN_INCREASE_LEVEL + 1)
                * LASER_COOLDOWN_INCREASE)
             MAX_LASER_COOLDOWN.

(** ** Floating rectangles (pygame [FRect]) *)

Definition Qltb (a b : Q) : bool := negb (Qle_bool b a).

(** Python's [int(x)] on a float: truncation towards zero. *)
Definition Qtrunc (q : Q) : Z := Z.quot (Qnum q) (Zpos (Qden q)).

Definition Vec2 : Type := (Q * Q)%type.

Definition vec_add (a b : Vec2) : Vec2 :=
  ((fst a + fst b)%Q, (snd a + snd b)%Q).
Definition vec_scale (a : Vec2) (k : Q) : Vec2 :=
  ((fst a * k)%Q, (snd a * k)%Q).
Definition length_squared (a : Vec2) : Q :=
  (fst a * fst a + snd a * snd a)%Q.

Record FRect : Type := mkFRect { fx : Q; fy : Q; fw : Q; fh : Q }.

Definition rect_left (r : FRect) : Q := fx r.
Definition rect_top (r : FRect) : Q := fy r.
Definition rect_right (r : FRect) : Q := (fx r + fw r)%Q.
Definition rect_bottom (r : FRect) : Q := (fy r + fh r)%Q.
Definition rect_centerx (r : FRect) : Q := (fx r + fw r / 2)%Q.
Definition rect_centery (r : FRect) : Q := (fy r + fh r / 2)%Q.
Definition rect_center (r : FRect) : Vec2 := (rect_centerx r, rect_centery r).
Definition rect_midtop (r : FRect) : Vec2 := (rect_centerx r, rect_top r).

Definition set_centerx (r : FRect) (c : Q) : FRect :=
  mkFRect (c - fw r / 2)%Q (fy r) (fw r) (fh r).
Definition set_centery (r : FRect) (c : Q) : FRect :=
  mkFRect (fx r) (c - fh r / 2)%Q (fw r) (fh r).
Definition set_center (r : FRect) (c : Vec2) : FRect :=
  mkFRect (fst c - fw r / 2)%Q (snd c - fh r / 2)%Q (fw r) (fh r).

(** [surface.get_frect(center=pos)] for a surface of integer size. *)
Definition get_frect_center (size : Z * Z) (pos : Vec2) : FRect :=
  let w := inject_Z (fst size) in
  let h := inject_Z (snd size) in
  mkFRect (fst pos - w / 2)%Q (snd pos - h / 2)%Q w h.

(** [surface.get_frect(midbottom=pos)]. *)
Definition get_frect_midbottom (size : Z * Z) (pos : Vec2) : FRect :=
  let w := inject_Z (fst size) in
  let h := inject_Z (snd size) in
  mkFRect (fst pos - w / 2)%Q (snd pos - h)%Q w h.

(** One axis of pygame's [clamp]: a span [x, x+w) moved inside [ax, ax+aw). *)
Definition clamp_axis (x w ax aw : Q) : Q :=
  if Qle_bool aw w then (ax + aw / 2 - w / 2)%Q
  else if Qltb x ax then ax
  else if Qltb (ax + aw) (x + w) then (ax + aw - w)%Q
  else x.

Definition clamp_ip (r area : FRect) : FRect :=
  mkFRect (clamp_axis (fx r) (fw r) (fx area) (fw area))
          (clamp_axis (fy r) (fh r) (fy area) (fh area))
          (fw r) (fh r).

Definition screen_rect : FRect :=
  mkFRect 0 0 (inject_Z WINDOW_WIDTH) (inject_Z WINDOW_HEIGHT).

(** Two rectangles overlap on a region of positive area. *)
Definition rects_overlap (a b : FRect) : bool :=
  Qltb (rect_left a) (rect_right b) && Qltb (rect_left b) (rect_right a)
  && Qltb (rect_top a) (rect_bottom b) && Qltb (rect_top b) (rect_bottom a).

(** ** Sprites (lines 126-346) *)

Record Player : Type := mkPlayer {
  p_rect : FRect;
  p_direction : Vec2;
  p_speed : Z;
  can_shoot : bool;
  laser_cooldown : Z;
  laser_shoot_time : Z;
  lives : Z;
  alive : bool
}.

Record Star : Type := mkStar { s_rect : FRect }.

Record Laser : Type := mkLaser { l_rect : FRect; l_speed : Z }.

(** The surface a meteor currently shows: the loaded one, or the loaded one
    rotated by an angle.  The meteor's mask is always the mask of this
    surface (lines 297 and 309). *)
Inductive MeteorImage : Type :=
| Original
| Rotozoom (angle : Q).

Record Meteor : Type := mkMeteor {
  m_image : MeteorImage;
  m_rect : FRect;
  m_speed : Q;
  m_direction : Vec2;
  rotation_speed : Z;
  rotation : Q;
  creation_time : Z
}.

Record AnimatedExplosion : Type := mkExplosion {
  e_index : Q;
  e_frame : Z;
  e_rect : FRect;
  animation_speed : Z
}.

(** What the game asks of pygame and of the loaded assets. *)
Class Pygame : Type := {
  player_size : Z * Z;
  laser_size : Z * Z;
  star_size : Z * Z;
  meteor_size : Z * Z;
  explosion_size : Z * Z;
  (** size of [pygame.transform.rotozoom(meteor_surf, angle, 1)] *)
  rotozoom_size : Q -> Z * Z;
  (** [Vector2.normalize] *)
  normalize : Vec2 -> Vec2;
  (** [pygame.sprite.collide_mask] between the player and a meteor *)
  collide_mask_player : Player -> Meteor -> bool;
  (** [pygame.sprite.collide_mask] between a laser and a meteor *)
  collide_mask_laser : Laser -> Meteor -> bool
}.

(** The values drawn from [random] by [Meteor.__init__]. *)
Record MeteorRandom : Type := mkMeteorRandom {
  rand_x : Z;            (* random.randint(0, WINDOW_WIDTH - width) *)
  rand_y : Z;            (* random.randint(-200, -50) *)
  rand_drift : Q;        (* random.uniform(-0.5, 0.5) *)
  rand_rotation : Z      (* random.randint(50, 300) *)
}.

(** The ranges [random] draws them from. *)
Definition meteor_random_ok (width : Z) (r : MeteorRandom) : Prop :=
  0 <= rand_x r <= WINDOW_WIDTH - width /\
  -200 <= rand_y r <= -50 /\
  (- (1 # 2) <= rand_drift r <= 1 # 2)%Q /\
  50 <= rand_rotation r <= 300.

Section Sprites.
Context {pg : Pygame}.

(** *** Player *)

Definition Player_init : Player :=
  mkPlayer
    (get_frect_center player_size
       (inject_Z (WINDOW_WIDTH / 2), inject_Z (WINDOW_HEIGHT / 2)))
    (0%Q, 0%Q)
    PLAYER_SPEED
    true
    INITIAL_LASER_COOLDOWN
    0
    INITIAL_LIVES
    true.

Definition with_rect (p : Player) (r : FRect) : Player :=
  mkPlayer r (p_direction p) (p_speed p) (can_shoot p) (laser_cooldown p)
           (laser_shoot_time p) (lives p) (alive p).

Definition with_direction (p : Player) (d : Vec2) : Player :=
  mkPlayer (p_rect p) d (p_speed p) (can_shoot p) (laser_cooldown p)
           (laser_shoot_time p) (lives p) (alive p).

Definition with_can_shoot (p : Player) (b : bool) : Player :=
  mkPlayer (p_rect p) (p_direction p) (p_speed p) b (laser_cooldown p)
           (laser_shoot_time p) (lives p) (alive p).

Definition with_laser_shoot_time (p : Player) (t : Z) : Player :=
  mkPlayer (p_rect p) (p_direction p) (p_speed p) (can_shoot p)
           (laser_cooldown p) t (lives p) (alive p).

Definition with_laser_cooldown (p : Player) (c : Z) : Player :=
  mkPlayer (p_rect p) (p_direction p) (p_speed p) (can_shoot p) c
           (laser_shoot_time p) (lives p) (alive p).

Definition with_lives (p : Player) (n : Z) : Player :=
  mkPlayer (p_rect p) (p_direction p) (p_speed p) (can_shoot p)
           (laser_cooldown p) (laser_shoot_time p) n (alive p).

Definition with_alive (p : Player) (b : bool) : Player :=
  mkPlayer (p_rect p) (p_direction p) (p_speed p) (can_shoot p)
           (laser_cooldown p) (laser_shoot_time p) (lives p) b.

(** The keyboard as pygame holds it between two calls of
    [pygame.event.get()]: what [pygame.key.get_pressed()] answers for the
    keys the game looks at, and what [pygame.key.get_just_pressed()] answers
    for SPACE. *)
Record Keys : Type := mkKeys {
  K_d : bool; K_a : bool; K_s : bool; K_w : bool;
  K_SPACE : bool; K_ESCAPE : bool;
  just_pressed_SPACE : bool
}.

Definition Player_input (p : Player) (keys : Keys) : Player :=
  let d := (inject_Z (Z.b2z (K_d keys) - Z.b2z (K_a keys)),
            inject_Z (Z.b2z (K_s keys) - Z.b2z (K_w keys))) in
  if Qltb 0 (length_squared d) then with_direction p (normalize d)
  else with_direction p d.

Definition Player_move (p : Player) (dt : Q) : Player :=
  let r1 := set_centerx (p_rect p)
              (rect_centerx (p_rect p)
               + fst (p_direction p) * inject_Z (p_speed p) * dt)%Q in
  let r2 := set_centery r1
              (rect_centery r1
               + snd (p_direction p) * inject_Z (p_speed p) * dt)%Q in
  with_rect p (clamp_ip r2 screen_rect).

Definition Laser_init (pos : Vec2) : Laser :=
  mkLaser (get_frect_midbottom laser_size pos) 700.

(** [shoot_laser]: the player after the call and the laser created, if any.
    [ticks] is what [pygame.time.get_ticks()] returns at line 187. *)
Definition Player_shoot_laser (p : Player) (keys : Keys) (ticks : Z)
  : Player * option Laser :=
  if just_pressed_SPACE keys && can_shoot p then
    (with_laser_shoot_time (with_can_shoot p false) ticks,
     Some (Laser_init (rect_midtop (p_rect p))))
  else (p, None).

(** [laser_timer]; [ticks] is the reading at line 192. *)
Definition Player_laser_timer (p : Player) (ticks : Z) : Player :=
  if negb (can_shoot p) then
    if ticks - laser_shoot_time p >=? laser_cooldown p
    then with_can_shoot p true
    else p
  else p.

Definition Player_take_damage (p : Player) : Player :=
  let p1 := with_lives p (lives p - 1) in
  if lives p1 <=? 0 then with_alive p1 false else p1.

Definition Player_update_laser_cooldown (p : Player) (current_level : Z)
  : Player :=
  if current_level >=? LASER_COOLDOWN_INCREASE_LEVEL then
    let level_factor := current_level - LASER_COOLDOWN_INCREASE_LEVEL + 1 in
    let new_cooldown :=
      INITIAL_LASER_COOLDOWN + level_factor * LASER_COOLDOWN_INCREASE in
    with_laser_cooldown p (Z.min new_cooldown MAX_LASER_COOLDOWN)
  else p.

(** The cooldown of a player created by [Player()] once
    [update_laser_cooldown(level)] has run on it. *)
Definition weapon_cooldown (level : Z) : Z :=
  laser_cooldown (Player_update_laser_cooldown Player_init level).

Definition Player_update (p : Player) (dt : Q) (current_level : Z)
    (keys : Keys) (shoot_ticks timer_ticks : Z) : Player * option Laser :=
  let p1 := Player_input p keys in
  let p2 := Player_move p1 dt in
  let '(p3, new_laser) := Player_shoot_laser p2 keys shoot_ticks in
  let p4 := Player_laser_timer p3 timer_ticks in
  (Player_update_laser_cooldown p4 current_level, new_laser).

(** *** Star *)

Definition Star_init (rand_pos : Z * Z) : Star :=
  mkStar (get_frect_center star_size
            (inject_Z (fst rand_pos), inject_Z (snd rand_pos))).

(** *** Laser.  An update returns [None] when the sprite calls [kill()]. *)

Definition Laser_update (l : Laser) (dt : Q) : option Laser :=
  let r := set_centery (l_rect l)
             (rect_centery (l_rect l) - inject_Z (l_speed l) * dt)%Q in
  if Qltb (rect_bottom r) 0 then None else Some (mkLaser r (l_speed l)).

(** *** Meteor *)

Definition Meteor_init (speed_multiplier : Q) (r : MeteorRandom) (ticks : Z)
  : Meteor :=
  mkMeteor Original
    (get_frect_center meteor_size
       (inject_Z (rand_x r), inject_Z (rand_y r)))
    (500 * speed_multiplier)%Q
    (rand_drift r, 1%Q)
    (rand_rotation r)
    0%Q
    ticks.

(** Lines 302-313 of [Meteor.update]: the meteor moved, rotated, and its
    rectangle taken again from the rotated image around the same centre. *)
Definition Meteor_advance (m : Meteor) (dt : Q) : Meteor :=
  let moved :=
    set_center (m_rect m)
      (vec_add (rect_center (m_rect m))
               (vec_scale (vec_scale (m_direction m) (m_speed m)) dt)) in
  let rotation' := (rotation m + inject_Z (rotation_speed m) * dt)%Q in
  let image' := Rotozoom rotation' in
  let old_center := rect_center moved in
  let rect' := get_frect_center (rotozoom_size rotation') old_center in
  mkMeteor image' rect' (m_speed m) (m_direction m)
           (rotation_speed m) rotation' (creation_time m).

(** [Meteor.update]; [ticks] is the reading of [pygame.time.get_ticks()] at
    line 316. *)
Definition Meteor_update (m : Meteor) (dt : Q) (ticks : Z) : option Meteor :=
  let m' := Meteor_advance m dt in
  let current_time := ticks in
  if (current_time - creation_time m >=? 5000)
     || Qltb (inject_Z (WINDOW_HEIGHT + 100)) (rect_top (m_rect m'))
  then None
  else Some m'.

(** *** AnimatedExplosion *)

Definition AnimatedExplosion_init (pos : Vec2) : AnimatedExplosion :=
  mkExplosion 0%Q 0 (get_frect_center explosion_size pos) 30.

Definition AnimatedExplosion_update (e : AnimatedExplosion) (dt : Q)
  : option AnimatedExplosion :=
  let index' := (e_index e + inject_Z (animation_speed e) * dt)%Q in
  if Qltb index' (inject_Z EXPLOSION_FRAMES)
  then Some (mkExplosion index' (Qtrunc index') (e_rect e) (animation_speed e))
  else None.

End Sprites.

(** ** Sprite groups

    [all_sprites] holds the stars, lasers, meteors and explosions;
    [laser_sprites] holds the lasers and [meteor_sprites] the meteors, each in
    creation order.  A sprite is in all of its groups or, after [kill()], in
    none, so the three groups are kept as one list per kind: [lasers] is
    [laser_sprites], [meteors] is [meteor_sprites], and [all_sprites] is the
    four lists together.  The player belongs to no group. *)

Record Groups : Type := mkGroups {
  stars : list Star;
  lasers : list Laser;
  meteors : list Meteor;
  explosions : list AnimatedExplosion
}.

(** [pygame.sprite.spritecollide(sprite, group, True, collided)]: every
    sprite of the group that collides is killed and returned.  The result is
    the list returned and the group left. *)
Definition spritecollide {A : Type} (collided : A -> Meteor -> bool)
    (sprite : A) (group : list Meteor) : list Meteor * list Meteor :=
  (filter (collided sprite) group,
   filter (fun m => negb (collided sprite m)) group).

(** [Group.update]: each sprite is updated in turn; those that call [kill()]
    leave the group. *)
Fixpoint update_group {A : Type} (update : A -> option A) (group : list A)
  : list A :=
  match group with
  | [] => []
  | sprite :: rest =>
      match update sprite with
      | Some sprite' => sprite' :: update_group update rest
      | None => update_group update rest
      end
  end.

(** The same for meteors, the [i]-th of which reads the clock [ticks i]. *)
Fixpoint update_meteors `{Pygame} (group : list Meteor) (dt : Q)
    (ticks : nat -> Z) (i : nat) : list Meteor :=
  match group with
  | [] => []
  | m :: rest =>
      match Meteor_update m dt (ticks i) with
      | Some m' => m' :: update_meteors rest dt ticks (S i)
      | None => update_meteors rest dt ticks (S i)
      end
  end.

Section Game.
Context {pg : Pygame}.

Definition spawn_stars (count : nat) (rand_pos : nat -> Z * Z) : list Star :=
  map (fun i => Star_init (rand_pos i)) (seq 0 count).

(** The [for laser in laser_sprites] loop of [check_collisions] (lines
    386-396): the lasers left, the meteors left, the explosions created and
    the score. *)
Fixpoint laser_loop (lasers : list Laser) (meteor_sprites : list Meteor)
    (score : Z)
  : list Laser * list Meteor * list AnimatedExplosion * Z :=
  match lasers with
  | [] => ([], meteor_sprites, [], score)
  | laser :: rest =>
      let '(meteors_hit, meteor_sprites1) :=
        spritecollide collide_mask_laser laser meteor_sprites in
      match meteors_hit with
      | _ :: _ =>
          let '(kept, ms, created, sc) :=
            laser_loop rest meteor_sprites1
                       (score + METEOR_DESTRUCTION_POINTS) in
          (kept, ms,
           AnimatedExplosion_init (rect_midtop (l_rect laser)) :: created, sc)
      | [] =>
          let '(kept, ms, created, sc) :=
            laser_loop rest meteor_sprites1 score in
          (laser :: kept, ms, created, sc)
      end
  end.

Definition check_collisions (player : Player) (groups : Groups) (score : Z)
  : Player * Groups * Z :=
  let '(player_hits, meteor_sprites1) :=
    spritecollide collide_mask_player player (meteors groups) in
  let player1 :=
    match player_hits with
    | _ :: _ => Player_take_damage player
    | [] => player
    end in
  let '(lasers1, meteor_sprites2, created, score1) :=
    laser_loop (lasers groups) meteor_sprites1 score in
  (player1,
   mkGroups (stars groups) lasers1 meteor_sprites2
            (explosions groups ++ created),
   score1).

(** ** The main loop (lines 454-555) *)

Record Game : Type := mkGame {
  player : Player;
  groups : Groups;
  score : Z;
  level : Z;
  last_score_update : Z;
  meteor_spawn_rate : Z;
  meteor_timer : Z;
  running : bool;
  game_over : bool
}.

(** An event of [pygame.event.get()]: of type [pygame.QUIT], or not. *)
Inductive Event : Type :=
| QUIT
| OtherEvent.

Definition is_QUIT (event : Event) : bool :=
  match event with QUIT => true | OtherEvent => false end.

(** Everything one iteration of the loop reads from outside. *)
Record Frame : Type := mkFrame {
  tick : Z;                    (* clock.tick(FPS), line 483 *)
  ticks : Z;                   (* get_ticks(), line 484 *)
  events : list Event;         (* pygame.event.get(), line 487 *)
  keys : Keys;                 (* the keyboard during this iteration *)
  shoot_ticks : Z;             (* get_ticks(), line 187 *)
  timer_ticks : Z;             (* get_ticks(), line 192 *)
  spawn_random : MeteorRandom; (* random draws of a new meteor *)
  spawn_ticks : Z;             (* get_ticks(), line 294 *)
  update_ticks : nat -> Z      (* get_ticks(), line 316, per meteor *)
}.

(** State at the entry of the loop. [rand_pos] gives the random star
    positions; the two timestamps are the readings of lines 471 and 475. *)
Definition run_game_init (rand_pos : nat -> Z * Z) (t_score t_meteor : Z)
  : Game :=
  let level := 1 in
  mkGame Player_init
         (mkGroups (spawn_stars 20 rand_pos) [] [] [])
         0 level t_score
         (calculate_meteor_spawn_time level) t_meteor
         true false.

(** Result of the event loop (lines 487-498): it runs to its end, leaving
    [running], or the function returns from inside it. *)
Inductive EventResult : Type :=
| Proceed (running : bool)
| Returned (restart : bool).

Fixpoint handle_events (evs : list Event) (game_over running : bool)
    (keys : Keys) : EventResult :=
  match evs with
  | [] => Proceed running
  | event :: rest =>
      let running1 := if is_QUIT event then false else running in
      if game_over then
        if K_SPACE keys then Returned true
        else if K_ESCAPE keys then Returned false
        else handle_events rest game_over running1 keys
      else handle_events rest game_over running1 keys
  end.

(** Lines 518-520: the score and [last_score_update] after the passive
    score increase. *)
Definition survival_points (score last_score_update current_time : Z)
  : Z * Z :=
  if current_time - last_score_update >=? 1000
  then (score + SURVIVAL_POINTS_PER_SECOND, current_time)
  else (score, last_score_update).

(** Lines 523-534: the meteor group, [meteor_timer] and
    [meteor_spawn_rate] after the spawn timer is looked at. *)
Definition spawn_meteor (meteor_sprites : list Meteor)
    (meteor_timer meteor_spawn_rate level current_time : Z)
    (rnd : MeteorRandom) (created_at : Z)
  : list Meteor * Z * Z :=
  if current_time - meteor_timer >=? meteor_spawn_rate then
    let speed_multiplier := (1 + inject_Z (level - 1) * (1 # 10))%Q in
    (meteor_sprites ++ [Meteor_init speed_multiplier rnd created_at],
     current_time,
     calculate_meteor_spawn_time level)
  else (meteor_sprites, meteor_timer, meteor_spawn_rate).

(** [all_sprites.update(dt)] (line 538); stars do nothing. *)
Definition update_all (g : Groups) (dt : Q) (clock : nat -> Z) : Groups :=
  mkGroups (stars g)
           (update_group (fun l => Laser_update l dt) (lasers g))
           (update_meteors (meteors g) dt clock 0)
           (update_group (fun e => AnimatedExplosion_update e dt)
                         (explosions g)).

(** What one iteration of [while running] does: the function returns, or
    the iteration ends with a new state. *)
Inductive Outcome : Type :=
| Continue (g : Game)
| Return (restart : bool).

Definition frame (g : Game) (f : Frame) : Outcome :=
  let dt := (inject_Z (tick f) / 1000)%Q in
  let current_time := ticks f in
  match handle_events (events f) (game_over g) (running g) (keys f) with
  | Returned restart => Return restart
  | Proceed running1 =>
      if game_over g then
        Continue (mkGame (player g) (groups g) (score g) (level g)
                         (last_score_update g) (meteor_spawn_rate g)
                         (meteor_timer g) running1 (game_over g))
      else
        let level1 := get_current_level (score g) in
        let '(score1, last_score_update1) :=
          survival_points (score g) (last_score_update g) current_time in
        let '(meteor_sprites1, meteor_timer1, meteor_spawn_rate1) :=
          spawn_meteor (meteors (groups g)) (meteor_timer g)
                       (meteor_spawn_rate g) level1 current_time
                       (spawn_random f) (spawn_ticks f) in
        let '(player1, new_laser) :=
          Player_update (player g) dt level1 (keys f)
                        (shoot_ticks f) (timer_ticks f) in
        let laser_sprites1 :=
          match new_laser with
          | Some l => lasers (groups g) ++ [l]
          | None => lasers (groups g)
          end in
        let groups1 :=
          update_all (mkGroups (stars (groups g)) laser_sprites1
                               meteor_sprites1 (explosions (groups g)))
                     dt (update_ticks f) in
        let '(player2, groups2, score2) :=
          check_collisions player1 groups1 score1 in
        let game_over1 := if negb (alive player2) then true else game_over g in
        Continue (mkGame player2 groups2 score2 level1 last_score_update1
                         meteor_spawn_rate1 meteor_timer1 running1 game_over1)
  end.

(** The [while running] loop over the frames given; [Continue g] when the
    loop is still going after them, [Return false] when [running] is found
    false (line 555). *)
Fixpoint run_game (g : Game) (frames : list Frame) : Outcome :=
  if running g then
    match frames with
    | [] => Continue g
    | f :: rest =>
        match frame g f with
        | Continue g' => run_game g' rest
        | Return restart => Return restart
        end
    end
  else Return false.

(** The states the loop goes through: the one it starts from, then one
    after each iteration done, until the function returns or the frames
    given are used up. *)
Fixpoint states (g : Game) (frames : list Frame) : list Game :=
  g ::
  match frames with
  | [] => []
  | f :: rest =>
      if running g then
        match frame g f with
        | Continue g' => states g' rest
        | Return _ => []
        end
      else []
  end.

(** The states a run can be in at the top of the loop. *)
Inductive reachable : Game -> Prop :=
| reachable_init (rand_pos : nat -> Z * Z) (t_score t_meteor : Z) :
    reachable (run_game_init rand_pos t_score t_meteor)
| reachable_frame (g g' : Game) (f : Frame) :
    reachable g -> running g = true -> frame g f = Continue g' ->
    reachable g'.

(** How many times a flag goes from false to true along a list of states. *)
Fixpoint rises (flag : Game -> bool) (trace : list Game) : nat :=
  match trace with
  | g :: (g' :: _) as rest =>
      (if negb (flag g) && flag g' then 1 else 0) + rises flag rest
  | _ => 0
  end.

(** Two states that follow each other in a list of states. *)
Definition consecutive (trace : list Game) (g g' : Game) : Prop :=
  exists i, nth_error trace i = Some g /\ nth_error trace (S i) = Some g'.

End Game.

(** What holds of the lives, of [alive] and of [game_over] at the top of
    the loop. *)
Definition lives_invariant `{Pygame} (g : Game) : Prop :=
  0 <= lives (player g) <= INITIAL_LIVES /\
  alive (player g) = (0 <? lives (player g)) /\
  game_over g = negb (alive (player g)).

(** The score and the level a run has when the loop is still going. *)
Definition outcome_score (o : Outcome) : option Z :=
  match o with Continue g => Some (score g) | Return _ => None end.

Definition outcome_level (o : Outcome) : option Z :=
  match o with Continue g => Some (level g) | Return _ => None end.

(** Frames that fall on the one-second boundaries after time [t], none
    with a QUIT event. *)
Fixpoint one_second_apart (t : Z) (frames : list Frame) : bool :=
  match frames with
  | [] => true
  | f :: rest =>
      (ticks f =? t + 1000) && negb (existsb is_QUIT (events f))
      && one_second_apart (ticks f) rest
  end.

(** ** A concrete pygame for the examples

    Every image is a filled rectangle, so that two masks collide exactly
    when the two rectangles overlap (the examples use integer coordinates,
    on which pygame's integer mask offsets are exact).  The meteor image is a
    100 x 100 square and the examples rotate it by right angles only, which
    keeps its size. *)

Definition example_normalize (v : Vec2) : Vec2 :=
  if Qeq_bool (fst v) 0 || Qeq_bool (snd v) 0 then v
  else vec_scale v (7071067811865475 # 10000000000000000).

#[global] Instance example_pygame : Pygame := {|
  player_size := (100, 80);
  laser_size := (10, 50);
  star_size := (20, 20);
  meteor_size := (100, 100);
  explosion_size := (60, 60);
  rotozoom_size := fun _ => (100, 100);
  normalize := example_normalize;
  collide_mask_player := fun p m => rects_overlap (p_rect p) (m_rect m);
  collide_mask_laser := fun l m => rects_overlap (l_rect l) (m_rect m)
|}.

(** A meteor of the example images with its top left corner at [(x, y)],
    created at time [t]. *)
Definition example_meteor (x y : Z) (t : Z) : Meteor :=
  mkMeteor Original (mkFRect (inject_Z x) (inject_Z y) 100 100)
           500 (0%Q, 1%Q) 90 0%Q t.

(** A laser of the example images with its top left corner at [(x, y)]. *)
Definition example_laser (x y : Z) : Laser :=
  mkLaser (mkFRect (inject_Z x) (inject_Z y) 10 50) 700.

(** The same images with no opaque pixel: no mask ever collides. *)
Definition transparent_pygame : Pygame := {|
  player_size := (100, 80);
  laser_size := (10, 50);
  star_size := (20, 20);
  meteor_size := (100, 100);
  explosion_size := (60, 60);
  rotozoom_size := fun _ => (100, 100);
  normalize := example_normalize;
  collide_mask_player := fun _ _ => false;
  collide_mask_laser := fun _ _ => false
|}.

(** One laser under two overlapping meteors, away from the player. *)
Definition example_laser_groups : Groups :=
  mkGroups [] [example_laser 100 100]
           [example_meteor 80 80 0; example_meteor 95 120 0] [].

(** Two meteors over the player, who stands at the centre of the window. *)
Definition example_player_groups : Groups :=
  mkGroups [] [] [example_meteor 550 300 0; example_meteor 650 350 0] [].

(** A state of the game-over screen, and a frame with no event in which
    SPACE and ESCAPE are both held down. *)
Definition example_game_over : Game :=
  mkGame (with_alive (with_lives Player_init 0) false)
         (mkGroups [] [] [example_meteor 500 230 0] [])
         140 1 9000 600 9300 true true.

Definition example_idle_frame : Frame :=
  mkFrame 8 10000 []
          (mkKeys false false false false true true true)
          10000 10000 (mkMeteorRandom 640 (-100) 0 90) 10000
          (fun _ => 10000).

(** A frame at time [now], [tick_ms] after the one before, with no event
    and no key held; if a meteor is spawned, it is above the player. *)
Definition example_frame (tick_ms now : Z) : Frame :=
  mkFrame tick_ms now []
          (mkKeys false false false false false false false)
          now now (mkMeteorRandom 640 (-100) 0 90) now
          (fun _ => now).

(** [n] frames, [step] milliseconds apart, the first at time [step]. *)
Definition example_frames (step : Z) (n : nat) : list Frame :=
  map (fun i => example_frame step (step * Z.of_nat i)) (seq 1 n).

(** ** The hearts of the user interface (lines 416-428)

    [display_ui] draws text, whose size comes from the font, and the
    hearts, whose place is plain arithmetic.  The hearts are modelled: for
    each [i] of [range(INITIAL_LIVES)], whether the full heart is drawn, and
    the rectangle it is drawn in. *)

(** [surface.get_frect(topright=pos)]. *)
Definition get_frect_topright (size : Z * Z) (pos : Vec2) : FRect :=
  let w := inject_Z (fst size) in
  let h := inject_Z (snd size) in
  mkFRect (fst pos - w)%Q (snd pos) w h.

(** Both heart surfaces are [pygame.Surface((30, 30))] (lines 74-77). *)
Definition heart_size : Z * Z := (30, 30).

Definition display_ui_heart (lives i : Z) : bool * FRect :=
  let heart_spacing := 40 in
  let full := i <? lives in
  let heart_x := WINDOW_WIDTH - heart_spacing * (INITIAL_LIVES - i) in
  let heart_y := 20 in
  (full, get_frect_topright heart_size (inject_Z heart_x, inject_Z heart_y)).

Definition display_ui_hearts (lives : Z) : list (bool * FRect) :=
  map (fun i => display_ui_heart lives (Z.of_nat i))
      (seq 0 (Z.to_nat INITIAL_LIVES)).

(** A rectangle lies inside the window. *)
Definition inside_window (r : FRect) : Prop :=
  (0 <= rect_left r /\ rect_right r <= inject_Z WINDOW_WIDTH /\
   0 <= rect_top r /\ rect_bottom r <= inject_Z WINDOW_HEIGHT)%Q.

(** ** An explosion through the frames

    [AnimatedExplosion.update] called with the [dt] of one frame after the
    other, as [all_sprites.update] does for as long as the explosion is in
    the group; [None] once it has called [kill()]. *)
Fixpoint AnimatedExplosion_updates `{Pygame} (e : AnimatedExplosion)
    (dts : list Q) : option AnimatedExplosion :=
  match dts with
  | [] => Some e
  | dt :: rest =>
      match AnimatedExplosion_update e dt with
      | Some e' => AnimatedExplosion_updates e' rest
      | None => None
      end
  end.

Definition Qsum (l : list Q) : Q := fold_right Qplus 0%Q l.

(** No laser of the list touches the meteor. *)
Definition untouched `{Pygame} (ls : list Laser) (m : Meteor) : bool :=
  forallb (fun l => negb (collide_mask_laser l m)) ls.

(** What holds of the score and of the difficulty at the top of the loop:
    the score is a multiple of 10 and not negative; the level stored is a
    level from 1 to [MAX_LEVEL], at most the level of the score; the spawn
    interval stored is at most 600 ms and at least the interval of the level
    stored; the cooldown of the player is the cooldown of the level
    stored. *)
Definition run_invariant `{Pygame} (g : Game) : Prop :=
  0 <= score g /\ score g mod 10 = 0 /\
  1 <= level g <= MAX_LEVEL /\
  level g <= get_current_level (score g) /\
  calculate_meteor_spawn_time (level g) <= meteor_spawn_rate g <= 600 /\
  laser_cooldown (player g) = weapon_cooldown (level g) /\
  p_speed (player g) = PLAYER_SPEED.

(** What holds of the sprites in the groups at the top of the loop.  A
    laser has the speed 700 and the size of the laser image, and its bottom
    edge is not above the window.  A meteor falls: its vertical direction
    is 1 and its speed is between 500 and 850; it shows a rotated image, and
    its top is at most 100 pixels below the window.  An explosion has the
    animation speed 30, an index below the number of frames, and the size
    of the first explosion frame. *)
Definition laser_ok `{Pygame} (l : Laser) : Prop :=
  l_speed l = 700 /\
  fw (l_rect l) = inject_Z (fst laser_size) /\
  fh (l_rect l) = inject_Z (snd laser_size) /\
  (0 <= rect_bottom (l_rect l))%Q.

Definition falling (m : Meteor) : Prop :=
  snd (m_direction m) = 1%Q /\ (500 <= m_speed m <= 850)%Q.

Definition meteor_ok `{Pygame} (m : Meteor) : Prop :=
  falling m /\
  m_image m = Rotozoom (rotation m) /\
  (rect_top (m_rect m) <= inject_Z (WINDOW_HEIGHT + 100))%Q.

Definition explosion_ok `{Pygame} (e : AnimatedExplosion) : Prop :=
  animation_speed e = 30 /\
  (e_index e < inject_Z EXPLOSION_FRAMES)%Q /\
  fw (e_rect e) = inject_Z (fst explosion_size) /\
  fh (e_rect e) = inject_Z (snd explosion_size).

Definition sprites_invariant `{Pygame} (g : Game) : Prop :=
  (forall l, In l (lasers (groups g)) -> laser_ok l) /\
  (forall m, In m (meteors (groups g)) -> meteor_ok m) /\
  (forall e, In e (explosions (groups g)) -> explosion_ok e).

(** The example run, of frames one second apart in each of which a meteor
    falls on the player, and its state after [n] frames. *)
Definition example_start : Game := run_game_init (fun _ => (0, 0)) 0 0.

Definition example_state (n : nat) : Game :=
  last (states example_start (example_frames 1000 n)) example_start.

(** SPACE just pressed, nothing else. *)
Definition example_fire_keys : Keys :=
  mkKeys false false false false true false true.

(** A frame like those of the example run, one second long, whose meteor
    is spawned far to the left of the player, and the state it leaves
    after the start of the example run. *)
Definition example_far_frame : Frame :=
  mkFrame 1000 1000 []
          (mkKeys false false false false false false false)
          1000 1000 (mkMeteorRandom 100 (-100) 0 90) 1000
          (fun _ => 1000).

Definition example_far_state : Game :=
  match frame example_start example_far_frame with
  | Continue g => g
  | Return _ => example_start
  end.

(** * Properties *)

(** ** Levels *)

Lemma scan_thresholds_Some (score : Z) (thresholds : list Z) :
  forall i j, scan_thresholds score i thresholds = Some j ->
    i <= j < i + Z.of_nat (length thresholds) /\
    (exists t, nth_error thresholds (Z.to_nat (j - i)) = Some t /\ score < t) /\
    (forall k t, nth_error thresholds k = Some t -> score < t ->
                 j <= i + Z.of_nat k).
Proof.
  induction thresholds as [|t rest IH]; intros i j Hscan; simpl in Hscan.
  - discriminate.
  - destruct (Z.ltb_spec score t) as [Hlt|Hge].
    + injection Hscan as <-. split; [simpl length; lia|]. split.
      * exists t. rewrite Z.sub_diag. simpl. split; [reflexivity|exact Hlt].
      * intros k t' _ _. lia.
    + destruct (IH _ _ Hscan) as (Hrange & (t' & Hnth & Hlt) & Hmin).
      split; [simpl length; lia|]. split.
      * exists t'. split; [|exact Hlt].
        replace (Z.to_nat (j - i)) with (S (Z.to_nat (j - (i + 1)))) by lia.
        exact Hnth.
      * intros [|k] t'' Hk Hlt''; simpl in Hk.
        -- injection Hk as <-. lia.
        -- specialize (Hmin _ _ Hk Hlt''). lia.
Qed.

Lemma scan_thresholds_None (score : Z) (thresholds : list Z) :
  forall i, scan_thresholds score i thresholds = None ->
    forall t, In t thresholds -> ~ score < t.
Proof.
  induction thresholds as [|t rest IH]; intros i Hscan t' Hin; simpl in *.
  - contradiction.
  - destruct (Z.ltb_spec score t) as [Hlt|Hge]; [discriminate|].
    destruct Hin as [<-|Hin]; [lia|]. exact (IH _ Hscan _ Hin).
Qed.

(** The level counted from index [i]: what the loop returns, or the index
    past the list. *)
Lemma scan_thresholds_mono (thresholds : list Z) :
  forall i s1 s2, s1 <= s2 ->
    match scan_thresholds s1 i thresholds with
    | Some j => j
    | None => i + Z.of_nat (length thresholds)
    end
    <=
    match scan_thresholds s2 i thresholds with
    | Some j => j
    | None => i + Z.of_nat (length thresholds)
    end.
Proof.
  induction thresholds as [|t rest IH]; intros i s1 s2 Hle; simpl.
  - lia.
  - destruct (Z.ltb_spec s1 t) as [H1|H1], (Z.ltb_spec s2 t) as [H2|H2];
      try lia.
    + destruct (scan_thresholds s2 (i + 1) rest) as [j|] eqn:E.
      * apply scan_thresholds_Some in E. lia.
      * lia.
    + specialize (IH (i + 1) s1 s2 Hle).
      destruct (scan_thresholds s1 (i + 1) rest),
               (scan_thresholds s2 (i + 1) rest); lia.
Qed.

Lemma level_for_range (thresholds : list Z) (score : Z) :
  0 <= level_for thresholds score <= Z.of_nat (length thresholds).
Proof.
  unfold level_for.
  destruct (scan_thresholds score 0 thresholds) as [j|] eqn:E.
  - apply scan_thresholds_Some in E. lia.
  - lia.
Qed.

Lemma level_for_smallest (thresholds : list Z) (score : Z) (k : nat) (t : Z) :
  nth_error thresholds k = Some t -> score < t ->
  level_for thresholds score <= Z.of_nat k.
Proof.
  intros Hk Hlt. unfold level_for.
  destruct (scan_thresholds score 0 thresholds) as [j|] eqn:E.
  - apply scan_thresholds_Some in E. destruct E as (_ & _ & Hmin).
    specialize (Hmin _ _ Hk Hlt). lia.
  - exfalso. apply nth_error_In in Hk.
    exact (scan_thresholds_None _ _ _ E _ Hk Hlt).
Qed.

Lemma level_for_hit (thresholds : list Z) (score : Z) :
  level_for thresholds score < Z.of_nat (length thresholds) ->
  exists t, nth_error thresholds (Z.to_nat (level_for thresholds score))
            = Some t /\ score < t.
Proof.
  unfold level_for.
  destruct (scan_thresholds score 0 thresholds) as [j|] eqn:E.
  - intros _. apply scan_thresholds_Some in E.
    destruct E as (_ & (t & Hnth & Hlt) & _).
    exists t. rewrite Z.sub_0_r in Hnth. auto.
  - lia.
Qed.

Lemma level_for_mono (thresholds : list Z) (s1 s2 : Z) :
  s1 <= s2 -> level_for thresholds s1 <= level_for thresholds s2.
Proof.
  intros Hle. unfold level_for.
  exact (scan_thresholds_mono thresholds 0 s1 s2 Hle).
Qed.

(** C1, as the specification states it, fails on its last example: with
    thresholds [0,300,600] a score of 1000 gives level 3, the length of the
    list, not 4. *)
Lemma level_for_past_list_is_not_4 : level_for [0; 300; 600] 1000 <> 4.
Proof. vm_compute. discriminate. Qed.

(** C1 (amended): [get_current_level] returns the smallest index [i] with
    [score < T[i]], and the length [K] of the list when there is none; it is
    monotonically non-decreasing in the score; [get_current_level 0 = 1];
    and for thresholds [0,300,600] it returns 1 at 299, 2 at 300 and 3 (the
    length of the list) at 1000. *)
Theorem get_current_level_spec :
  (forall (T : list Z) (score : Z),
      0 <= level_for T score <= Z.of_nat (length T) /\
      (forall i t, nth_error T i = Some t -> score < t ->
                   level_for T score <= Z.of_nat i) /\
      (level_for T score < Z.of_nat (length T) ->
       exists t, nth_error T (Z.to_nat (level_for T score)) = Some t
                 /\ score < t) /\
      ((forall t, In t T -> ~ score < t) ->
       level_for T score = Z.of_nat (length T))) /\
  (forall score, get_current_level score = level_for LEVEL_THRESHOLDS score) /\
  (forall (T : list Z) (s1 s2 : Z),
      s1 <= s2 -> level_for T s1 <= level_for T s2) /\
  get_current_level 0 = 1 /\
  level_for [0; 300; 600] 299 = 1 /\
  level_for [0; 300; 600] 300 = 2 /\
  level_for [0; 300; 600] 1000 = 3.
Proof.
  split; [|split; [|split; [|repeat split]]].
  - intros T score. split; [apply level_for_range|]. split; [|split].
    + intros i t. apply level_for_smallest.
    + apply level_for_hit.
    + intros Hnone.
      destruct (Z.eq_dec (level_for T score) (Z.of_nat (length T)))
        as [E|NE]; [exact E|exfalso].
      pose proof (level_for_range T score) as Hr.
      destruct (level_for_hit T score) as (t & Hnth & Hlt); [lia|].
      apply nth_error_In in Hnth. exact (Hnone _ Hnth Hlt).
  - reflexivity.
  - intros T s1 s2. apply level_for_mono.
Qed.

(** ** Meteor spawn interval *)

Lemma calculate_meteor_spawn_time_shifted (level : Z) :
  calculate_meteor_spawn_time level = spec_spawn_interval (level + 1).
Proof.
  unfold calculate_meteor_spawn_time, spec_spawn_interval.
  replace (level + 1 - 1) with level by lia. reflexivity.
Qed.

Lemma calculate_meteor_spawn_time_antitone (l1 l2 : Z) :
  l1 <= l2 ->
  calculate_meteor_spawn_time l2 <= calculate_meteor_spawn_time l1.
Proof.
  unfold calculate_meteor_spawn_time, BASE_METEOR_SPAWN_RATE,
    METEOR_SPAWN_RATE_DECREASE, MIN_METEOR_SPAWN_RATE. lia.
Qed.

Lemma calculate_meteor_spawn_time_floor (level : Z) :
  MIN_METEOR_SPAWN_RATE <= calculate_meteor_spawn_time level.
Proof. unfold calculate_meteor_spawn_time. lia. Qed.

(** C4: at level 1 the code gives a spawn interval of 600 ms, where the
    formula [max(BASE - (L-1) * DECREASE, MIN)] gives 700 ms, the value the
    comment on [BASE_METEOR_SPAWN_RATE] promises for level 1.  The code
    subtracts [L * DECREASE]: on every level from 1 to 7 it is 100 ms below
    the formula. *)
Theorem calculate_meteor_spawn_time_level_1 :
  calculate_meteor_spawn_time 1 = 600 /\
  spec_spawn_interval 1 = 700 /\
  BASE_METEOR_SPAWN_RATE = 700 /\
  (forall L, 1 <= L <= 7 ->
     calculate_meteor_spawn_time L = spec_spawn_interval L - 100).
Proof.
  repeat split.
  intros L HL.
  unfold calculate_meteor_spawn_time, spec_spawn_interval,
    BASE_METEOR_SPAWN_RATE, METEOR_SPAWN_RATE_DECREASE, MIN_METEOR_SPAWN_RATE.
  lia.
Qed.

(** ** Weapon cooldown *)

Section Cooldown.
Context {pg : Pygame}.

(** The cooldown a player created by [Player()] has after
    [update_laser_cooldown(L)]. *)
Lemma update_laser_cooldown_eq (p : Player) (L : Z) :
  laser_cooldown (Player_update_laser_cooldown p L) =
  if L <? LASER_COOLDOWN_INCREASE_LEVEL then laser_cooldown p
  else Z.min (INITIAL_LASER_COOLDOWN
              + (L - LASER_COOLDOWN_INCREASE_LEVEL + 1)
                * LASER_COOLDOWN_INCREASE)
             MAX_LASER_COOLDOWN.
Proof.
  unfold Player_update_laser_cooldown.
  destruct (Z.geb_spec L LASER_COOLDOWN_INCREASE_LEVEL) as [H|H];
    destruct (Z.ltb_spec L LASER_COOLDOWN_INCREASE_LEVEL) as [H'|H'];
    try lia; reflexivity.
Qed.

Lemma update_laser_cooldown_fresh (L : Z) :
  laser_cooldown (Player_update_laser_cooldown Player_init L) =
  spec_weapon_cooldown L.
Proof. rewrite update_laser_cooldown_eq. reflexivity. Qed.

Lemma spec_weapon_cooldown_cases (L : Z) :
  (L < 3 /\ spec_weapon_cooldown L = 400) \/
  (3 <= L <= 6 /\ spec_weapon_cooldown L = 200 + 100 * L) \/
  (6 < L /\ spec_weapon_cooldown L = 800).
Proof.
  unfold spec_weapon_cooldown, LASER_COOLDOWN_INCREASE_LEVEL,
    INITIAL_LASER_COOLDOWN, LASER_COOLDOWN_INCREASE, MAX_LASER_COOLDOWN.
  destruct (Z.ltb_spec L 3); lia.
Qed.

(** C5 (amended): on a player created by [Player()], the cooldown set
    for level [L] is [INITIAL_LASER_COOLDOWN] when
    [L < LASER_COOLDOWN_INCREASE_LEVEL] (the stored cooldown is left as it
    is) and [min(INITIAL + (L - LEVEL + 1) * INCREASE, MAX)] otherwise; it is
    non-decreasing in [L], strictly increasing only from level 3 to level 6,
    where it reaches [MAX_LASER_COOLDOWN], constant from there on, and never
    exceeds [MAX_LASER_COOLDOWN]. *)
Theorem weapon_cooldown_spec :
  (forall p L, L < LASER_COOLDOWN_INCREASE_LEVEL ->
     laser_cooldown (Player_update_laser_cooldown p L) = laser_cooldown p) /\
  (forall L, L < LASER_COOLDOWN_INCREASE_LEVEL ->
     weapon_cooldown L = INITIAL_LASER_COOLDOWN) /\
  (forall p L, LASER_COOLDOWN_INCREASE_LEVEL <= L ->
     laser_cooldown (Player_update_laser_cooldown p L) =
     Z.min (INITIAL_LASER_COOLDOWN
            + (L - LASER_COOLDOWN_INCREASE_LEVEL + 1) * LASER_COOLDOWN_INCREASE)
           MAX_LASER_COOLDOWN) /\
  (forall L1 L2, L1 <= L2 -> weapon_cooldown L1 <= weapon_cooldown L2) /\
  (forall L1 L2, LASER_COOLDOWN_INCREASE_LEVEL <= L1 -> L1 < L2 -> L2 <= 6 ->
     weapon_cooldown L1 < weapon_cooldown L2) /\
  (forall L, 6 <= L -> weapon_cooldown L = MAX_LASER_COOLDOWN) /\
  (forall L, weapon_cooldown L <= MAX_LASER_COOLDOWN).
Proof.
  unfold weapon_cooldown.
  split; [|split; [|split; [|split; [|split; [|split]]]]].
  - intros p L HL. rewrite update_laser_cooldown_eq.
    destruct (Z.ltb_spec L LASER_COOLDOWN_INCREASE_LEVEL); [reflexivity|lia].
  - intros L HL. rewrite update_laser_cooldown_eq.
    destruct (Z.ltb_spec L LASER_COOLDOWN_INCREASE_LEVEL); [reflexivity|lia].
  - intros p L HL. rewrite update_laser_cooldown_eq.
    destruct (Z.ltb_spec L LASER_COOLDOWN_INCREASE_LEVEL); [lia|reflexivity].
  - intros L1 L2 HL. rewrite !update_laser_cooldown_fresh.
    destruct (spec_weapon_cooldown_cases L1) as [[? ->]|[[? ->]|[? ->]]],
             (spec_weapon_cooldown_cases L2) as [[? ->]|[[? ->]|[? ->]]]; lia.
  - unfold LASER_COOLDOWN_INCREASE_LEVEL.
    intros L1 L2 H1 H12 H2. rewrite !update_laser_cooldown_fresh.
    destruct (spec_weapon_cooldown_cases L1) as [[? ->]|[[? ->]|[? ->]]],
             (spec_weapon_cooldown_cases L2) as [[? ->]|[[? ->]|[? ->]]]; lia.
  - intros L HL. rewrite update_laser_cooldown_fresh.
    unfold MAX_LASER_COOLDOWN.
    destruct (spec_weapon_cooldown_cases L) as [[? ->]|[[? ->]|[? ->]]]; lia.
  - intros L. rewrite update_laser_cooldown_fresh.
    unfold MAX_LASER_COOLDOWN.
    destruct (spec_weapon_cooldown_cases L) as [[? ->]|[[? ->]|[? ->]]]; lia.
Qed.

End Cooldown.

(** C5, as the specification states it, fails: levels 6 and 7 are both at or
    above [LASER_COOLDOWN_INCREASE_LEVEL] and both have the cooldown
    [MAX_LASER_COOLDOWN], so the cooldown is not strictly increasing
    there. *)
Lemma weapon_cooldown_not_strictly_increasing :
  LASER_COOLDOWN_INCREASE_LEVEL <= 6 /\
  ~ (weapon_cooldown 6 < weapon_cooldown 7).
Proof. split; [discriminate|]. vm_compute. intros H. discriminate H. Qed.

(** ** Collisions *)

Section Collisions.
Context {pg : Pygame}.

Lemma spritecollide_killed {A : Type} (collided : A -> Meteor -> bool)
    (sprite : A) (group : list Meteor) (m : Meteor) :
  In m (fst (spritecollide collided sprite group)) <->
  In m group /\ collided sprite m = true.
Proof. unfold spritecollide. simpl. apply filter_In. Qed.

Lemma spritecollide_left {A : Type} (collided : A -> Meteor -> bool)
    (sprite : A) (group : list Meteor) (m : Meteor) :
  In m (snd (spritecollide collided sprite group)) <->
  In m group /\ collided sprite m = false.
Proof.
  unfold spritecollide. simpl. rewrite filter_In, negb_true_iff. reflexivity.
Qed.

Lemma filter_none {A : Type} (f : A -> bool) (l : list A) :
  filter f l = [] -> filter (fun x => negb (f x)) l = l.
Proof.
  induction l as [|x l IH]; simpl; [reflexivity|].
  destruct (f x); simpl; [discriminate|]. intros H. now rewrite IH.
Qed.

(** The loop over a list of lasers followed by another is the loop over
    the first, then the loop over the second from where the first ended. *)
Lemma laser_loop_app (before after : list Laser) :
  forall (ms : list Meteor) (score : Z),
    laser_loop (before ++ after) ms score =
    let '(kept_b, ms_b, created_b, score_b) := laser_loop before ms score in
    let '(kept_a, ms_a, created_a, score_a) := laser_loop after ms_b score_b in
    (kept_b ++ kept_a, ms_a, created_b ++ created_a, score_a).
Proof.
  induction before as [|l before IH]; intros ms score; simpl.
  - destruct (laser_loop after ms score) as [[[? ?] ?] ?]. reflexivity.
  - destruct (filter (collide_mask_laser l) ms) as [|hit hits].
    + rewrite IH.
      destruct (laser_loop before _ score) as [[[kb mb] cb] sb].
      destruct (laser_loop after mb sb) as [[[? ?] ?] ?]. reflexivity.
    + rewrite IH.
      destruct (laser_loop before _ _) as [[[kb mb] cb] sb].
      destruct (laser_loop after mb sb) as [[[? ?] ?] ?]. reflexivity.
Qed.

(** The score grows by the destruction points once per explosion created,
    and every laser is either kept or replaced by one explosion. *)
Lemma laser_loop_totals (lasers : list Laser) :
  forall (ms : list Meteor) (score : Z) kept ms' created score',
    laser_loop lasers ms score = (kept, ms', created, score') ->
    score' = score + METEOR_DESTRUCTION_POINTS * Z.of_nat (length created) /\
    (length kept + length created = length lasers)%nat.
Proof.
  induction lasers as [|l lasers IH]; intros ms score kept ms' created score'
    Hloop; simpl in Hloop.
  - injection Hloop as <- <- <- <-. simpl length. split; lia.
  - destruct (filter (collide_mask_laser l) ms) as [|hit hits].
    + destruct (laser_loop lasers _ score) as [[[k m] c] s] eqn:E.
      injection Hloop as <- <- <- <-.
      destruct (IH _ _ _ _ _ _ E) as [-> Hlen]. simpl length. split; lia.
    + destruct (laser_loop lasers _ _) as [[[k m] c] s] eqn:E.
      injection Hloop as <- <- <- <-.
      destruct (IH _ _ _ _ _ _ E) as [-> Hlen]. simpl length.
      unfold METEOR_DESTRUCTION_POINTS. split; lia.
Qed.

(** The meteors left by the loop are those that no laser of the group
    touches. *)
Lemma laser_loop_meteors (lasers : list Laser) :
  forall (ms : list Meteor) (score : Z) (m : Meteor),
    In m (snd (fst (fst (laser_loop lasers ms score)))) <->
    In m ms /\ forall l, In l lasers -> collide_mask_laser l m = false.
Proof.
  induction lasers as [|l lasers IH]; intros ms score m; simpl.
  - split; [intros H; split; [exact H|contradiction]|tauto].
  - assert (Hrest : forall sc,
      In m (snd (fst (fst (laser_loop lasers
         (filter (fun m0 => negb (collide_mask_laser l m0)) ms) sc)))) <->
      In m ms /\ forall l0, l = l0 \/ In l0 lasers ->
                            collide_mask_laser l0 m = false).
    { intros sc. rewrite IH, filter_In, negb_true_iff. split.
      - intros [[Hin Hl] Hrest]. split; [exact Hin|].
        intros l0 [<-|Hl0]; auto.
      - intros [Hin Hall]. split; [split|]; auto. }
    destruct (filter (collide_mask_laser l) ms) as [|hit hits].
    + specialize (Hrest score).
      destruct (laser_loop lasers _ score) as [[[k m'] c] s]. exact Hrest.
    + specialize (Hrest (score + METEOR_DESTRUCTION_POINTS)).
      destruct (laser_loop lasers _ _) as [[[k m'] c] s]. exact Hrest.
Qed.

(** C2 (amended): in one collision pass, a laser that intersects one or
    more of the meteors still alive when its turn comes destroys every
    meteor it intersects, is itself destroyed, spawns exactly one explosion,
    at its [midtop], and adds [METEOR_DESTRUCTION_POINTS] to the score
    exactly once, however many meteors it destroyed.  [before] and [after]
    are the lasers of the group before and after it; the loop over [before]
    leaves the meteors [ms_b] and the score [score_b]. *)
Theorem laser_hit_spec (before after : list Laser) (laser : Laser)
    (ms : list Meteor) (score : Z)
    kept_b ms_b created_b score_b kept_a ms_a created_a score_a :
  laser_loop before ms score = (kept_b, ms_b, created_b, score_b) ->
  filter (collide_mask_laser laser) ms_b <> [] ->
  laser_loop after
             (filter (fun m => negb (collide_mask_laser laser m)) ms_b)
             (score_b + METEOR_DESTRUCTION_POINTS)
    = (kept_a, ms_a, created_a, score_a) ->
  laser_loop (before ++ laser :: after) ms score =
    (kept_b ++ kept_a,
     ms_a,
     created_b
       ++ AnimatedExplosion_init (rect_midtop (l_rect laser)) :: created_a,
     score_a) /\
  (forall m, In m ms_b -> collide_mask_laser laser m = true -> ~ In m ms_a) /\
  score_a = score_b + METEOR_DESTRUCTION_POINTS
            + METEOR_DESTRUCTION_POINTS * Z.of_nat (length created_a) /\
  (let explosion := AnimatedExplosion_init (rect_midtop (l_rect laser)) in
   rect_centerx (e_rect explosion) == fst (rect_midtop (l_rect laser)) /\
   rect_centery (e_rect explosion) == snd (rect_midtop (l_rect laser)))%Q.
Proof.
  intros Hb Hhit Ha. split; [|split; [|split]].
  - rewrite laser_loop_app, Hb. simpl.
    destruct (filter (collide_mask_laser laser) ms_b) as [|hit hits];
      [contradiction|].
    rewrite Ha. reflexivity.
  - intros m Hin Hcol Hin'.
    pose proof (laser_loop_meteors after
      (filter (fun m => negb (collide_mask_laser laser m)) ms_b)
      (score_b + METEOR_DESTRUCTION_POINTS) m) as Hm.
    rewrite Ha in Hm. simpl in Hm. apply Hm in Hin'.
    destruct Hin' as [Hin' _]. apply filter_In in Hin'.
    destruct Hin' as [_ Hneg]. rewrite Hcol in Hneg. discriminate.
  - apply laser_loop_totals in Ha. unfold METEOR_DESTRUCTION_POINTS in *. lia.
  - unfold AnimatedExplosion_init, get_frect_center, rect_centerx,
      rect_centery. simpl. split; field.
Qed.

(** C3 (amended): in one collision pass every meteor whose mask intersects
    the player's is destroyed; the player takes exactly one damage event
    when at least one meteor intersects, however many do, and none
    otherwise. *)
Theorem player_hit_spec (player : Player) (groups : Groups) (score : Z) :
  let hits := filter (collide_mask_player player) (meteors groups) in
  let '(player', groups', _) := check_collisions player groups score in
  (forall m, In m (meteors groups') ->
             In m (meteors groups) /\ collide_mask_player player m = false) /\
  (hits <> [] -> player' = Player_take_damage player) /\
  (hits <> [] -> lives player' = lives player - 1) /\
  (hits = [] -> player' = player).
Proof.
  intros hits. subst hits. unfold check_collisions, spritecollide.
  pose proof (laser_loop_meteors (lasers groups)
    (filter (fun m => negb (collide_mask_player player m)) (meteors groups))
    score) as Hm.
  destruct (laser_loop (lasers groups) _ score) as [[[k ms'] c] s].
  simpl in Hm.
  destruct (filter (collide_mask_player player) (meteors groups))
    as [|hit hits] eqn:E.
  - split; [|split; [|split]]; try congruence.
    intros m Hin. apply Hm in Hin. destruct Hin as [Hin _].
    apply filter_In in Hin. rewrite negb_true_iff in Hin. exact Hin.
  - split; [|split; [|split]]; try congruence; try reflexivity.
    + intros m Hin. apply Hm in Hin. destruct Hin as [Hin _].
      apply filter_In in Hin. rewrite negb_true_iff in Hin. exact Hin.
    + intros _. unfold Player_take_damage. simpl.
      destruct (lives player - 1 <=? 0); reflexivity.
Qed.

End Collisions.

(** A laser under two overlapping meteors: both are destroyed, one
    explosion appears and the score grows by 20. *)
Lemma laser_hit_spec_witness :
  laser_loop [example_laser 100 100]
             [example_meteor 80 80 0; example_meteor 95 120 0] 0
  = ([], [],
     [AnimatedExplosion_init (rect_midtop (l_rect (example_laser 100 100)))],
     20).
Proof.
  apply (laser_hit_spec [] [] (example_laser 100 100)
           [example_meteor 80 80 0; example_meteor 95 120 0] 0
           [] [example_meteor 80 80 0; example_meteor 95 120 0] [] 0
           [] [] [] 20).
  - reflexivity.
  - vm_compute. discriminate.
  - reflexivity.
Defined.

(** C2, as the specification states it, fails: a laser that overlaps two
    meteors in the same pass destroys both of them, not exactly one; the
    score still grows once. *)
Lemma laser_destroys_both_meteors :
  Forall (fun m => collide_mask_laser (example_laser 100 100) m = true)
         (meteors example_laser_groups) /\
  length (meteors example_laser_groups) = 2%nat /\
  meteors (snd (fst (check_collisions Player_init example_laser_groups 0)))
    = [] /\
  snd (check_collisions Player_init example_laser_groups 0)
    = METEOR_DESTRUCTION_POINTS.
Proof.
  split; [|split; [|split]]; try reflexivity.
  repeat constructor.
Qed.

(** C3, as the specification states it, fails: with two meteors over the
    player in the same pass, the player loses one life, not two. *)
Lemma two_meteors_cost_one_life :
  length (filter (collide_mask_player Player_init)
                 (meteors example_player_groups)) = 2%nat /\
  lives (fst (fst (check_collisions Player_init example_player_groups 0)))
    = lives Player_init - 1 /\
  lives (fst (fst (check_collisions Player_init example_player_groups 0)))
    <> lives Player_init - 2.
Proof.
  split; [|split]; [reflexivity|reflexivity|].
  vm_compute. discriminate.
Qed.

(** ** Meteors *)

Lemma Qltb_lt (a b : Q) : Qltb a b = true <-> (a < b)%Q.
Proof.
  unfold Qltb. rewrite negb_true_iff. split.
  - intros H. apply Qnot_le_lt. intros Hle.
    apply Qle_bool_iff in Hle. congruence.
  - intros H. destruct (Qle_bool b a) eqn:E; [|reflexivity].
    apply Qle_bool_iff in E. exfalso. exact (Qlt_not_le _ _ H E).
Qed.

Lemma Qhalf (x : Q) : (x / 2 == x * (1 # 2))%Q.
Proof. field. Qed.

Section Meteors.
Context {pg : Pygame}.

Lemma Meteor_update_cases (m : Meteor) (dt : Q) (ticks : Z) :
  (Meteor_update m dt ticks = None <->
   5000 <= ticks - creation_time m \/
   (inject_Z (WINDOW_HEIGHT + 100)
      < rect_top (m_rect (Meteor_advance m dt)))%Q) /\
  (Meteor_update m dt ticks = Some (Meteor_advance m dt) <->
   ticks - creation_time m < 5000 /\
   (rect_top (m_rect (Meteor_advance m dt))
      <= inject_Z (WINDOW_HEIGHT + 100))%Q).
Proof.
  unfold Meteor_update.
  destruct (Z.geb_spec (ticks - creation_time m) 5000) as [Hage|Hage];
    cbn [orb].
  - split; split.
    + intros _. left. lia.
    + reflexivity.
    + discriminate.
    + intros [H _]. lia.
  - destruct (Qltb (inject_Z (WINDOW_HEIGHT + 100))
                   (rect_top (m_rect (Meteor_advance m dt)))) eqn:E.
    + apply Qltb_lt in E. split; split.
      * intros _. right. exact E.
      * reflexivity.
      * discriminate.
      * intros [_ H]. exfalso. exact (Qlt_not_le _ _ E H).
    + assert (Hle : (rect_top (m_rect (Meteor_advance m dt))
                     <= inject_Z (WINDOW_HEIGHT + 100))%Q).
      { unfold Qltb in E. rewrite negb_false_iff in E.
        apply Qle_bool_iff. exact E. }
      split; split.
      * discriminate.
      * intros [H|H]; [lia|]. exfalso. exact (Qlt_not_le _ _ H Hle).
      * intros _. split; [lia|exact Hle].
      * reflexivity.
Qed.

(** The meteors left in the group by [all_sprites.update]: each is a meteor
    of the group, advanced, that was younger than 5000 ms when it read the
    clock and whose top is at most 100 pixels below the window. *)
Lemma update_meteors_survivors (dt : Q) (clock : nat -> Z)
    (group : list Meteor) :
  forall i m', In m' (update_meteors group dt clock i) ->
    exists m j, In m group /\ m' = Meteor_advance m dt /\
      clock j - creation_time m < 5000 /\
      (rect_top (m_rect m') <= inject_Z (WINDOW_HEIGHT + 100))%Q.
Proof.
  induction group as [|m group IH]; intros i m' Hin; simpl in Hin.
  - contradiction.
  - assert (Hrest : In m' (update_meteors group dt clock (S i)) ->
      exists m0 j, In m0 (m :: group) /\ m' = Meteor_advance m0 dt /\
        clock j - creation_time m0 < 5000 /\
        (rect_top (m_rect m') <= inject_Z (WINDOW_HEIGHT + 100))%Q).
    { intros H. destruct (IH _ _ H) as (m0 & j & Hm0 & Hrest).
      exists m0, j. split; [right; exact Hm0|exact Hrest]. }
    destruct (Meteor_update m dt (clock i)) as [m1|] eqn:E; [|auto].
    destruct Hin as [<-|Hin]; [|auto].
    assert (Hm1 : m1 = Meteor_advance m dt).
    { unfold Meteor_update in E.
      destruct (_ || _) in E; [discriminate|]. injection E as <-.
      reflexivity. }
    subst m1. apply (proj2 (Meteor_update_cases m dt (clock i))) in E.
    exists m, i. split; [left; reflexivity|]. split; [reflexivity|exact E].
Qed.

(** C7 (amended): a meteor is destroyed by an update step exactly when
    its age at that step is at least 5000 ms, wherever it is, or the top of
    its rectangle is more than 100 pixels below the bottom edge of the
    window ([rect.top > WINDOW_HEIGHT + 100]); a meteor that has left the
    window by less than that and is younger survives the step.  So do the
    meteors of the group through [all_sprites.update]. *)
Theorem Meteor_update_kill_spec :
  (forall (m : Meteor) (dt : Q) (ticks : Z),
     (Meteor_update m dt ticks = None <->
      5000 <= ticks - creation_time m \/
      (inject_Z (WINDOW_HEIGHT + 100)
         < rect_top (m_rect (Meteor_advance m dt)))%Q) /\
     (Meteor_update m dt ticks = Some (Meteor_advance m dt) <->
      ticks - creation_time m < 5000 /\
      (rect_top (m_rect (Meteor_advance m dt))
         <= inject_Z (WINDOW_HEIGHT + 100))%Q)) /\
  (forall (dt : Q) (clock : nat -> Z) (group : list Meteor) (m' : Meteor),
     In m' (update_meteors group dt clock 0) ->
     exists m j, In m group /\ m' = Meteor_advance m dt /\
       clock j - creation_time m < 5000 /\
       (rect_top (m_rect m') <= inject_Z (WINDOW_HEIGHT + 100))%Q).
Proof.
  split.
  - apply Meteor_update_cases.
  - intros dt clock group m'. apply update_meteors_survivors.
Qed.

(** The rectangle [Meteor.__init__] gives a meteor: the random point is its
    centre. *)
Lemma Meteor_init_rect (k : Q) (r : MeteorRandom) (t : Z) :
  let rect := m_rect (Meteor_init k r t) in
  let w := inject_Z (fst meteor_size) in
  let h := inject_Z (snd meteor_size) in
  (rect_left rect == inject_Z (rand_x r) - w / 2 /\
   rect_right rect == inject_Z (rand_x r) + w / 2 /\
   rect_centery rect == inject_Z (rand_y r) /\
   rect_top rect == inject_Z (rand_y r) - h / 2)%Q.
Proof.
  unfold Meteor_init, get_frect_center, rect_left, rect_right, rect_centery,
    rect_top. simpl. repeat split; try reflexivity; field.
Qed.

(** What does hold of a new meteor: it does not pass the right edge, and
    its centre is at least 50 pixels above the window. *)
Lemma Meteor_init_right_and_above (k : Q) (r : MeteorRandom) (t : Z) :
  0 <= fst meteor_size -> 0 <= snd meteor_size ->
  meteor_random_ok (fst meteor_size) r ->
  let rect := m_rect (Meteor_init k r t) in
  (rect_right rect <= inject_Z WINDOW_WIDTH /\
   rect_centery rect <= - inject_Z 50 /\
   rect_top rect < 0)%Q.
Proof.
  intros Hw Hh (Hx & Hy & _) rect.
  destruct (Meteor_init_rect k r t) as (_ & Hright & Hcy & Htop).
  fold rect in Hright, Hcy, Htop.
  assert (Hx' : (inject_Z (rand_x r) + inject_Z (fst meteor_size)
                 <= inject_Z WINDOW_WIDTH)%Q).
  { rewrite <- inject_Z_plus. rewrite <- Zle_Qle. lia. }
  assert (Hy' : (inject_Z (rand_y r) <= - inject_Z 50)%Q).
  { rewrite <- inject_Z_opp. rewrite <- Zle_Qle. lia. }
  assert (Hw' : (0 <= inject_Z (fst meteor_size))%Q).
  { change 0%Q with (inject_Z 0). rewrite <- Zle_Qle. exact Hw. }
  assert (Hh' : (0 <= inject_Z (snd meteor_size))%Q).
  { change 0%Q with (inject_Z 0). rewrite <- Zle_Qle. exact Hh. }
  change (inject_Z 50) with 50%Q in *.
  rewrite Hright, Hcy, Htop.
  generalize dependent (inject_Z (rand_x r)).
  generalize dependent (inject_Z (rand_y r)).
  generalize dependent (inject_Z (fst meteor_size)).
  generalize dependent (inject_Z (snd meteor_size)).
  generalize (inject_Z WINDOW_WIDTH).
  intros W h Hh' w Hw' y Hcy Htop Hy' x Hright Hx'.
  clear - Hx' Hw' Hy' Hh'.
  rewrite (Qhalf w), (Qhalf h). repeat split; lra.
Qed.

(** The left edge is off-screen whenever the random abscissa is less than
    half the width of the image. *)
Lemma Meteor_init_left_edge (k : Q) (r : MeteorRandom) (t : Z) :
  2 * rand_x r < fst meteor_size ->
  (rect_left (m_rect (Meteor_init k r t)) < 0)%Q.
Proof.
  intros Hx.
  destruct (Meteor_init_rect k r t) as (Hleft & _). rewrite Hleft.
  assert (Hx' : (2 * inject_Z (rand_x r) < inject_Z (fst meteor_size))%Q).
  { change 2%Q with (inject_Z 2). rewrite <- inject_Z_mult.
    rewrite <- Zlt_Qlt. exact Hx. }
  rewrite Qhalf.
  generalize dependent (inject_Z (rand_x r)).
  generalize (inject_Z (fst meteor_size)). intros w x _ Hx'. lra.
Qed.

End Meteors.

(** C7, as the specification states it, fails: this meteor, one second old,
    ends its update with the top of its rectangle at 730, below the bottom
    edge of the window (720), and is not destroyed. *)
Lemma meteor_below_window_survives :
  exists m',
    Meteor_update (example_meteor 500 230 0) 1 1000 = Some m' /\
    (inject_Z WINDOW_HEIGHT < rect_top (m_rect m'))%Q /\
    (rect_top (m_rect m') == 730)%Q.
Proof.
  eexists. split; [reflexivity|]. split; reflexivity.
Qed.

(** C9: with the random abscissa 0, which [randint(0, WINDOW_WIDTH -
    width)] can draw, the 100 pixel wide meteor is centred on the left edge:
    its rectangle spans the abscissas -50 to 50, half of it off-screen. *)
Theorem Meteor_init_left_half_off_screen :
  let r := mkMeteorRandom 0 (-100) 0 50 in
  meteor_random_ok (fst meteor_size) r /\
  (rect_left (m_rect (Meteor_init 1 r 0)) == - (50))%Q /\
  (rect_left (m_rect (Meteor_init 1 r 0)) < 0)%Q /\
  (rect_right (m_rect (Meteor_init 1 r 0)) == 50)%Q.
Proof.
  intros r. split; [|split; [|split]]; try reflexivity.
  unfold meteor_random_ok. simpl.
  repeat split; try discriminate.
Qed.

(** ** The main loop *)

Section Loop.
Context {pg : Pygame}.

(** C10: in the game-over phase, an iteration whose event queue is
    empty changes nothing of the state and does not return (neither restart
    nor quit), whatever keys are held down, SPACE and ESCAPE included. *)
Theorem game_over_frame_without_events (g : Game) (f : Frame) :
  game_over g = true -> events f = [] -> frame g f = Continue g.
Proof.
  intros Hover Hevents. unfold frame. rewrite Hevents, Hover.
  destruct g. simpl in *. rewrite Hover. reflexivity.
Qed.

(** *** Lives *)

Lemma Player_update_lives (p : Player) (dt : Q) (current_level : Z)
    (k : Keys) (t1 t2 : Z) :
  lives (fst (Player_update p dt current_level k t1 t2)) = lives p /\
  alive (fst (Player_update p dt current_level k t1 t2)) = alive p.
Proof.
  unfold Player_update, Player_shoot_laser, Player_laser_timer,
    Player_update_laser_cooldown, Player_input, Player_move.
  repeat match goal with
         | |- context [if ?c then _ else _] => destruct c
         end; simpl; split; reflexivity.
Qed.

Lemma check_collisions_player (p : Player) (gr : Groups) (sc : Z) :
  fst (fst (check_collisions p gr sc)) = p \/
  fst (fst (check_collisions p gr sc)) = Player_take_damage p.
Proof.
  unfold check_collisions, spritecollide.
  destruct (laser_loop (lasers gr) _ sc) as [[[k m] c] s].
  destruct (filter (collide_mask_player p) (meteors gr)); simpl; auto.
Qed.

Lemma Player_take_damage_lives (p : Player) :
  lives (Player_take_damage p) = lives p - 1 /\
  alive (Player_take_damage p)
  = if lives p - 1 <=? 0 then false else alive p.
Proof.
  unfold Player_take_damage. simpl.
  destruct (lives p - 1 <=? 0); simpl; split; reflexivity.
Qed.

(** The player and the flags after an iteration that does not return. *)
Lemma frame_player (g g' : Game) (f : Frame) :
  frame g f = Continue g' ->
  (game_over g = true /\ player g' = player g /\ game_over g' = true) \/
  (game_over g = false /\
   game_over g' = negb (alive (player g')) /\
   ((lives (player g') = lives (player g) /\
     alive (player g') = alive (player g)) \/
    (lives (player g') = lives (player g) - 1 /\
     alive (player g')
     = if lives (player g) - 1 <=? 0 then false else alive (player g)))).
Proof.
  unfold frame.
  destruct (handle_events _ _ _ _) as [running1|]; [|discriminate].
  destruct (game_over g) eqn:Hover.
  - intros H. injection H as <-. left. simpl. auto.
  - destruct (survival_points _ _ _) as [score1 last1].
    destruct (spawn_meteor _ _ _ _ _ _ _) as [[ms1 timer1] rate1].
    pose proof (Player_update_lives (player g) (inject_Z (tick f) / 1000)
                  (get_current_level (score g)) (keys f)
                  (shoot_ticks f) (timer_ticks f)) as [Hl Ha].
    destruct (Player_update _ _ _ _ _ _) as [player1 new_laser].
    simpl in Hl, Ha.
    match goal with
    | |- context [check_collisions ?p ?gr ?sc] =>
        pose proof (check_collisions_player p gr sc) as Hc;
        destruct (check_collisions p gr sc) as [[player2 groups2] score2]
    end.
    simpl in Hc. intros H. injection H as <-. right. simpl.
    split; [reflexivity|]. split; [destruct (alive player2); reflexivity|].
    destruct Hc as [->| ->].
    + left. auto.
    + right. destruct (Player_take_damage_lives player1) as [-> ->].
      rewrite Hl, Ha. auto.
Qed.

Lemma lives_invariant_init (rand_pos : nat -> Z * Z) (t1 t2 : Z) :
  lives_invariant (run_game_init rand_pos t1 t2).
Proof. unfold lives_invariant. simpl. repeat split; discriminate. Qed.

(** One iteration keeps the invariant; the lives go down by at most one;
    [alive] falls, and [game_over] rises, exactly when the lives reach 0. *)
Lemma frame_lives (g g' : Game) (f : Frame) :
  lives_invariant g -> frame g f = Continue g' ->
  lives_invariant g' /\
  lives (player g) - 1 <= lives (player g') <= lives (player g) /\
  (alive (player g) = true /\ alive (player g') = false <->
   0 < lives (player g) /\ lives (player g') = 0) /\
  (game_over g = false /\ game_over g' = true <->
   0 < lives (player g) /\ lives (player g') = 0) /\
  (alive (player g) = false -> alive (player g') = false) /\
  (game_over g = true -> game_over g' = true).
Proof.
  unfold lives_invariant, INITIAL_LIVES.
  intros (Hrange & Halive & Hover) Hframe.
  apply frame_player in Hframe.
  destruct Hframe as [(Ho & Hp & Ho') | (Ho & Ho' & [[Hl Ha] | [Hl Ha]])];
    rewrite ?Hp, ?Ho', ?Ha, ?Hl; rewrite Ho in Hover;
    destruct (alive (player g)) eqn:Ea; try discriminate Hover;
    destruct (Z.ltb_spec 0 (lives (player g))) as [H0|H0];
    try discriminate Halive;
    try destruct (Z.leb_spec (lives (player g) - 1) 0) as [H1|H1];
    try destruct (Z.ltb_spec 0 (lives (player g) - 1)) as [H2|H2];
    simpl; try lia;
    repeat split; intros; try lia; try congruence;
    try (intuition congruence); try (intuition lia).
Qed.

Lemma reachable_lives_invariant (g : Game) :
  reachable g -> lives_invariant g.
Proof.
  induction 1 as [rand_pos t1 t2 | g g' f _ IH _ Hframe].
  - apply lives_invariant_init.
  - exact (proj1 (frame_lives g g' f IH Hframe)).
Qed.

(** *** Runs *)

Lemma states_head (frames : list Frame) (g : Game) :
  exists rest, states g frames = g :: rest.
Proof. destruct frames; simpl; eauto. Qed.

Lemma last_cons_default {A : Type} (l : list A) :
  forall x d d', last (x :: l) d = last (x :: l) d'.
Proof.
  induction l as [|y l IH]; intros x d d'; [reflexivity|].
  change (last (y :: l) d = last (y :: l) d'). apply IH.
Qed.

Lemma last_cons_In {A : Type} (l : list A) :
  forall x d, In (last (x :: l) d) (x :: l).
Proof.
  induction l as [|y l IH]; intros x d; [left; reflexivity|].
  right. change (In (last (y :: l) d) (y :: l)). apply IH.
Qed.

Lemma last_states_head (frames : list Frame) (g d : Game) :
  last (states g frames) d = last (states g frames) g.
Proof.
  destruct (states_head frames g) as [rest ->]. apply last_cons_default.
Qed.

Lemma states_consecutive (frames : list Frame) :
  forall g a b, consecutive (states g frames) a b ->
    exists f, running a = true /\ frame a f = Continue b.
Proof.
  induction frames as [|f rest IH]; intros g a b [i [Hi Hsi]].
  - simpl in Hsi. destruct i; discriminate.
  - simpl in Hi, Hsi.
    destruct (running g) eqn:Hrun; [|destruct i; discriminate].
    destruct (frame g f) as [g'|] eqn:Hframe; [|destruct i; discriminate].
    destruct i as [|i].
    + injection Hi as <-.
      destruct (states_head rest g') as [tl Htl]. rewrite Htl in Hsi.
      injection Hsi as <-. eauto.
    + apply (IH g'). exists i. auto.
Qed.

Lemma states_reachable (frames : list Frame) :
  forall g a, reachable g -> In a (states g frames) -> reachable a.
Proof.
  induction frames as [|f rest IH]; intros g a Hg Hin; simpl in Hin.
  - destruct Hin as [<-|[]]. exact Hg.
  - destruct Hin as [<-|Hin]; [exact Hg|].
    destruct (running g) eqn:Hrun; [|contradiction].
    destruct (frame g f) as [g'|] eqn:Hframe; [|contradiction].
    apply (IH g'); [|exact Hin]. exact (reachable_frame g g' f Hg Hrun Hframe).
Qed.

Lemma game_over_stays (frames : list Frame) :
  forall g, lives_invariant g -> game_over g = true ->
            game_over (last (states g frames) g) = true /\
            rises game_over (states g frames) = 0%nat.
Proof.
  induction frames as [|f rest IH]; intros g Hinv Hover; simpl.
  - auto.
  - destruct (running g); [|auto].
    destruct (frame g f) as [g'|] eqn:Hframe; [|auto].
    destruct (frame_lives g g' f Hinv Hframe) as (Hinv' & _ & _ & _ & _ & Hk).
    specialize (Hk Hover).
    destruct (IH g' Hinv' Hk) as [Hlast Hrises].
    destruct (states_head rest g') as [tl Htl].
    rewrite Htl in *. rewrite Hover, Hrises. simpl negb. simpl andb.
    split; [|reflexivity].
    rewrite <- Htl in *. rewrite last_states_head. exact Hlast.
Qed.

(** [game_over] rises at most once in a run, and does so exactly in the
    runs that end with [game_over] set. *)
Lemma rises_game_over (frames : list Frame) :
  forall g, lives_invariant g ->
    rises game_over (states g frames)
    = if game_over g then 0%nat
      else if game_over (last (states g frames) g) then 1%nat else 0%nat.
Proof.
  induction frames as [|f rest IH]; intros g Hinv; simpl.
  - destruct (game_over g); reflexivity.
  - destruct (running g); [|destruct (game_over g); reflexivity].
    destruct (frame g f) as [g'|] eqn:Hframe;
      [|destruct (game_over g); reflexivity].
    destruct (frame_lives g g' f Hinv Hframe) as (Hinv' & _ & _ & _ & _ & Hk).
    specialize (IH g' Hinv').
    pose proof (game_over_stays rest g' Hinv') as Hstay.
    pose proof (last_states_head rest g' g) as Hlast.
    destruct (states_head rest g') as [tl Htl].
    rewrite Htl in *. rewrite IH. rewrite Hlast.
    destruct (game_over g) eqn:Hover.
    + rewrite (Hk eq_refl). reflexivity.
    + destruct (game_over g') eqn:Hover'.
      * destruct (Hstay eq_refl) as [-> _]. reflexivity.
      * simpl. reflexivity.
Qed.

Lemma rises_ext (flag1 flag2 : Game -> bool) (trace : list Game) :
  (forall g, In g trace -> flag1 g = flag2 g) ->
  rises flag1 trace = rises flag2 trace.
Proof.
  induction trace as [|g trace IH]; intros Heq; [reflexivity|].
  destruct trace as [|g' trace]; [reflexivity|].
  change (rises flag1 (g :: g' :: trace))
    with ((if negb (flag1 g) && flag1 g' then 1 else 0)
          + rises flag1 (g' :: trace))%nat.
  change (rises flag2 (g :: g' :: trace))
    with ((if negb (flag2 g) && flag2 g' then 1 else 0)
          + rises flag2 (g' :: trace))%nat.
  rewrite IH by (intros x Hx; apply Heq; right; exact Hx).
  rewrite (Heq g), (Heq g') by (simpl; auto). reflexivity.
Qed.


End Loop.

(** The state of the game-over screen stays as it is through a frame
    without events, SPACE and ESCAPE held down. *)
Lemma game_over_frame_without_events_witness :
  frame example_game_over example_idle_frame = Continue example_game_over.
Proof.
  apply game_over_frame_without_events; reflexivity.
Defined.

(** A run in which a meteor falls on the player in each of the first three
    frames: the lives go 3, 2, 1, 0 and stay there, [game_over] rises once,
    and the score stops with it. *)
Example three_hits_end_the_run :
  let trace :=
    states (run_game_init (fun _ => (0, 0)) 0 0) (example_frames 1000 5) in
  map (fun g => lives (player g)) trace = [3; 2; 1; 0; 0; 0] /\
  map game_over trace = [false; false; false; true; true; true] /\
  map score trace = [0; 10; 20; 30; 30; 30] /\
  rises game_over trace = 1%nat.
Proof. vm_compute. repeat split. Qed.

(** ** Survival points *)

Section Survival.
Context {pg : Pygame}.

Lemma handle_events_playing (evs : list Event) (k : Keys) :
  forall r, handle_events evs false r k
            = Proceed (if existsb is_QUIT evs then false else r).
Proof.
  induction evs as [|e evs IH]; intros r; simpl; [reflexivity|].
  rewrite IH. destruct (is_QUIT e); simpl; [|reflexivity].
  destruct (existsb is_QUIT evs); reflexivity.
Qed.

(** The score after the collision pass: the destruction points, a whole
    number of times. *)
Lemma check_collisions_score (p : Player) (gr : Groups) (sc : Z) :
  exists hits : nat,
    snd (check_collisions p gr sc)
    = sc + METEOR_DESTRUCTION_POINTS * Z.of_nat hits.
Proof.
  unfold check_collisions, spritecollide.
  destruct (laser_loop (lasers gr) _ sc) as [[[k ms] created] sc'] eqn:E.
  apply laser_loop_totals in E. destruct E as [-> _].
  exists (length created). reflexivity.
Qed.

(** The level, the timestamp of the last accrual and the score after an
    iteration of the playing phase: lines 515-520 decide the first two, and
    the score but for the meteors destroyed. *)
Lemma frame_survival_points (g g' : Game) (f : Frame) :
  game_over g = false -> frame g f = Continue g' ->
  level g' = get_current_level (score g) /\
  last_score_update g'
    = snd (survival_points (score g) (last_score_update g) (ticks f)) /\
  exists hits : nat,
    score g'
    = fst (survival_points (score g) (last_score_update g) (ticks f))
      + METEOR_DESTRUCTION_POINTS * Z.of_nat hits.
Proof.
  intros Hover. unfold frame. rewrite Hover, handle_events_playing.
  destruct (survival_points _ _ _) as [score1 last1].
  destruct (spawn_meteor _ _ _ _ _ _ _) as [[ms1 timer1] rate1].
  destruct (Player_update _ _ _ _ _ _) as [player1 new_laser].
  match goal with
  | |- context [check_collisions ?p ?gr ?sc] =>
      pose proof (check_collisions_score p gr sc) as Hc;
      destruct (check_collisions p gr sc) as [[player2 groups2] score2]
  end.
  simpl in Hc. intros H. injection H as <-. simpl. auto.
Qed.

Hypothesis no_laser_hit : forall l m, collide_mask_laser l m = false.

Lemma laser_loop_no_hit (ls : list Laser) (ms : list Meteor) (sc : Z) :
  laser_loop ls ms sc = (ls, ms, [], sc).
Proof.
  induction ls as [|l ls IH]; simpl; [reflexivity|].
  assert (Hnone : filter (collide_mask_laser l) ms = []).
  { clear IH. induction ms as [|m ms IHm]; simpl; [reflexivity|].
    rewrite no_laser_hit. exact IHm. }
  rewrite Hnone, (filter_none _ _ Hnone), IH. reflexivity.
Qed.

Lemma check_collisions_no_laser_hit (p : Player) (gr : Groups) (sc : Z) :
  snd (check_collisions p gr sc) = sc.
Proof.
  unfold check_collisions, spritecollide. rewrite laser_loop_no_hit.
  reflexivity.
Qed.

(** The score, its timestamp and the level after an iteration of the
    playing phase in which no laser hits a meteor. *)
Lemma frame_survival (g g' : Game) (f : Frame) :
  game_over g = false -> frame g f = Continue g' ->
  (score g', last_score_update g')
    = survival_points (score g) (last_score_update g) (ticks f) /\
  level g' = get_current_level (score g).
Proof.
  intros Hover. unfold frame. rewrite Hover, handle_events_playing.
  destruct (survival_points _ _ _) as [score1 last1].
  destruct (spawn_meteor _ _ _ _ _ _ _) as [[ms1 timer1] rate1].
  destruct (Player_update _ _ _ _ _ _) as [player1 new_laser].
  match goal with
  | |- context [check_collisions ?p ?gr ?sc] =>
      pose proof (check_collisions_no_laser_hit p gr sc) as Hc;
      destruct (check_collisions p gr sc) as [[player2 groups2] score2]
  end.
  simpl in Hc. subst score2. intros H. injection H as <-. simpl. auto.
Qed.

Lemma frame_frozen (g g' : Game) (f : Frame) :
  game_over g = true -> frame g f = Continue g' ->
  score g' = score g /\ last_score_update g' = last_score_update g.
Proof.
  intros Hover. unfold frame. rewrite Hover.
  destruct (handle_events _ _ _ _); [|discriminate].
  intros H. injection H as <-. simpl. auto.
Qed.

(** Each accrual of 10 points uses up at least 1000 ms of the time between
    the start [t0] and the latest frame. *)
Lemma score_bound (t0 D : Z) (frames : list Frame) :
  (forall f, In f frames -> ticks f <= t0 + D) ->
  forall g,
    100 * score g <= last_score_update g - t0 ->
    last_score_update g <= t0 + D ->
    forall a, In a (states g frames) -> 100 * score a <= D.
Proof.
  induction frames as [|f rest IH]; intros Hticks g Hscore Hlast a Hin;
    simpl in Hin.
  - destruct Hin as [<-|[]]. lia.
  - destruct Hin as [<-|Hin]; [lia|].
    destruct (running g); [|contradiction].
    destruct (frame g f) as [g'|] eqn:Hframe; [|contradiction].
    assert (Hf : ticks f <= t0 + D) by (apply Hticks; left; reflexivity).
    assert (Hrest : forall f', In f' rest -> ticks f' <= t0 + D)
      by (intros f' Hf'; apply Hticks; right; exact Hf').
    destruct (game_over g) eqn:Hover.
    + destruct (frame_frozen g g' f Hover Hframe) as [Hs Hl].
      apply (IH Hrest g'); [lia|lia|exact Hin].
    + destruct (frame_survival g g' f Hover Hframe) as [Hs _].
      unfold survival_points, SURVIVAL_POINTS_PER_SECOND in Hs.
      destruct (Z.geb_spec (ticks f - last_score_update g) 1000);
        injection Hs as Hs Hl;
        apply (IH Hrest g'); try lia; exact Hin.
Qed.

Hypothesis no_player_hit : forall p m, collide_mask_player p m = false.

Lemma check_collisions_no_hit (p : Player) (gr : Groups) (sc : Z) :
  fst (fst (check_collisions p gr sc)) = p.
Proof.
  unfold check_collisions, spritecollide. rewrite laser_loop_no_hit.
  assert (Hnone : filter (collide_mask_player p) (meteors gr) = []).
  { induction (meteors gr) as [|m ms IHm]; simpl; [reflexivity|].
    rewrite no_player_hit. exact IHm. }
  rewrite Hnone. reflexivity.
Qed.

(** An iteration of the playing phase without QUIT event and without
    collision goes on in the playing phase. *)
Lemma frame_goes_on (g : Game) (f : Frame) :
  running g = true -> game_over g = false -> alive (player g) = true ->
  existsb is_QUIT (events f) = false ->
  exists g', frame g f = Continue g' /\
             running g' = true /\ game_over g' = false /\
             alive (player g') = true.
Proof.
  intros Hrun Hover Halive Hquit. unfold frame.
  rewrite Hover, handle_events_playing, Hquit, Hrun.
  destruct (survival_points _ _ _) as [score1 last1].
  destruct (spawn_meteor _ _ _ _ _ _ _) as [[ms1 timer1] rate1].
  pose proof (Player_update_lives (player g) (inject_Z (tick f) / 1000)
                (get_current_level (score g)) (keys f)
                (shoot_ticks f) (timer_ticks f)) as [_ Ha].
  destruct (Player_update _ _ _ _ _ _) as [player1 new_laser].
  simpl in Ha.
  match goal with
  | |- context [check_collisions ?p ?gr ?sc] =>
      pose proof (check_collisions_no_hit p gr sc) as Hc;
      destruct (check_collisions p gr sc) as [[player2 groups2] score2]
  end.
  simpl in Hc. subst player2. eexists. split; [reflexivity|]. simpl.
  rewrite Ha, Halive. auto.
Qed.

(** A run of frames on the one-second boundaries gains 10 points per
    frame, and its level is the level of the score before the last gain. *)
Lemma run_one_second_apart (frames : list Frame) :
  forall g,
    running g = true -> game_over g = false -> alive (player g) = true ->
    one_second_apart (last_score_update g) frames = true ->
    exists g', run_game g frames = Continue g' /\
      score g' = score g
                 + SURVIVAL_POINTS_PER_SECOND * Z.of_nat (length frames) /\
      (frames <> [] ->
       level g' = get_current_level (score g' - SURVIVAL_POINTS_PER_SECOND)).
Proof.
  unfold SURVIVAL_POINTS_PER_SECOND.
  induction frames as [|f rest IH]; intros g Hrun Hover Halive Hsec.
  - exists g. simpl. rewrite Hrun. repeat split; [lia|congruence].
  - simpl in Hsec. apply andb_prop in Hsec. destruct Hsec as [Hsec Hrest].
    apply andb_prop in Hsec. destruct Hsec as [Hticks Hquit].
    apply Z.eqb_eq in Hticks. apply negb_true_iff in Hquit.
    destruct (frame_goes_on g f Hrun Hover Halive Hquit)
      as (g1 & Hframe & Hrun1 & Hover1 & Halive1).
    destruct (frame_survival g g1 f Hover Hframe) as [Hs Hlevel].
    unfold survival_points, SURVIVAL_POINTS_PER_SECOND in Hs.
    destruct (Z.geb_spec (ticks f - last_score_update g) 1000); [|lia].
    injection Hs as Hs Hl. rewrite <- Hl in Hrest.
    destruct (IH g1 Hrun1 Hover1 Halive1 Hrest) as (g' & Hrun' & Hs' & Hl').
    exists g'. simpl run_game. rewrite Hrun, Hframe.
    split; [exact Hrun'|]. split; [simpl length; lia|].
    intros _. destruct rest as [|f' rest'].
    + simpl in Hrun'. rewrite Hrun1 in Hrun'. injection Hrun' as <-.
      rewrite Hlevel, Hs. f_equal. lia.
    + apply Hl'. discriminate.
Qed.

End Survival.




(** * Further properties *)

(** ** Difficulty as a function of the score *)

Lemma get_current_level_closed (score : Z) :
  get_current_level score
  = if score <? 0 then 0 else Z.min (score / 300 + 1) 8.
Proof.
  unfold get_current_level, level_for, LEVEL_THRESHOLDS. simpl.
  repeat match goal with
         | |- context [?a <? ?b] => destruct (Z.ltb_spec a b)
         end; simpl; try lia; Z.div_mod_to_equations; lia.
Qed.

(** X1: the eight thresholds are 300 points apart, so the level is
    [score / 300 + 1] up to the cap 8, which a score of 2100 reaches; a
    negative score, which no run has, gives the index 0.  The level is thus
    always between 0 and [MAX_LEVEL], and at least 1 for a score of 0 or
    more. *)
Theorem get_current_level_by_score :
  (forall score, 0 <= score ->
     get_current_level score = Z.min (score / 300 + 1) MAX_LEVEL) /\
  (forall score, score < 0 -> get_current_level score = 0) /\
  (forall score, 0 <= get_current_level score <= MAX_LEVEL) /\
  (forall score, 0 <= score -> 1 <= get_current_level score) /\
  (forall score, get_current_level score = MAX_LEVEL <-> 2100 <= score).
Proof.
  change MAX_LEVEL with 8.
  assert (Hcases : forall score,
            (score < 0 /\ get_current_level score = 0) \/
            (0 <= score /\
             get_current_level score = Z.min (score / 300 + 1) 8)).
  { intros score. rewrite get_current_level_closed.
    destruct (Z.ltb_spec score 0); [left|right]; split; auto. }
  repeat split; intros;
    match goal with
    | s : Z |- _ => destruct (Hcases s) as [[? Hl]|[? Hl]]
    end;
    rewrite ?Hl in *; try lia; Z.div_mod_to_equations; lia.
Qed.

(** X2: the difficulty the main loop derives from the score.  The
    spawn interval computed for the level of a score falls by 100 ms every
    300 points, from 600 ms at score 0 to 0 ms from 1800 points on (levels 7
    and 8), where a meteor is spawned on every iteration; the cooldown set
    for that level stays 400 ms below 600 points and is 800 ms from 1500
    points on. *)
Theorem difficulty_by_score `{pg : Pygame} :
  (forall score, 0 <= score ->
     calculate_meteor_spawn_time (get_current_level score)
     = Z.max (600 - 100 * (score / 300)) 0) /\
  (forall score, 0 <= score ->
     (calculate_meteor_spawn_time (get_current_level score) = 0
      <-> 1800 <= score)) /\
  (forall score, 0 <= score -> score < 600 ->
     weapon_cooldown (get_current_level score)
     = INITIAL_LASER_COOLDOWN) /\
  (forall score, 600 <= score ->
     weapon_cooldown (get_current_level score)
     = Z.min (200 + 100 * (score / 300 + 1)) MAX_LASER_COOLDOWN) /\
  (forall score, 0 <= score ->
     (weapon_cooldown (get_current_level score) = MAX_LASER_COOLDOWN
      <-> 1500 <= score)).
Proof.
  assert (Hlevel : forall score, 0 <= score ->
            get_current_level score = Z.min (score / 300 + 1) 8).
  { intros score H. rewrite get_current_level_closed.
    destruct (Z.ltb_spec score 0); [lia|reflexivity]. }
  assert (Hcool : forall L,
            (L < 3 /\ spec_weapon_cooldown L = 400) \/
            (3 <= L /\ spec_weapon_cooldown L = Z.min (200 + 100 * L) 800)).
  { intros L. unfold spec_weapon_cooldown, LASER_COOLDOWN_INCREASE_LEVEL,
      INITIAL_LASER_COOLDOWN, LASER_COOLDOWN_INCREASE, MAX_LASER_COOLDOWN.
    destruct (Z.ltb_spec L 3); [left|right]; split; auto. f_equal. lia. }
  unfold weapon_cooldown. setoid_rewrite update_laser_cooldown_fresh.
  unfold calculate_meteor_spawn_time, BASE_METEOR_SPAWN_RATE,
    METEOR_SPAWN_RATE_DECREASE, MIN_METEOR_SPAWN_RATE,
    INITIAL_LASER_COOLDOWN, MAX_LASER_COOLDOWN.
  repeat split; intros;
    match goal with
    | s : Z |- _ =>
        try (destruct (Hcool (get_current_level s)) as [[HL Hc]|[HL Hc]];
             rewrite ?Hc in *);
        rewrite (Hlevel s) in * by lia
    end;
    try lia; Z.div_mod_to_equations; lia.
Qed.

(** ** The player *)

Lemma Qle_bool_cases (a b : Q) :
  (Qle_bool a b = true /\ (a <= b)%Q) \/ (Qle_bool a b = false /\ (b < a)%Q).
Proof.
  destruct (Qle_bool a b) eqn:E.
  - left. split; [reflexivity|]. apply Qle_bool_iff. exact E.
  - right. split; [reflexivity|]. apply Qnot_le_lt. intros H.
    apply Qle_bool_iff in H. congruence.
Qed.

Lemma Qltb_cases (a b : Q) :
  (Qltb a b = true /\ (a < b)%Q) \/ (Qltb a b = false /\ (b <= a)%Q).
Proof.
  unfold Qltb. destruct (Qle_bool_cases b a) as [[-> H]|[-> H]]; auto.
Qed.

Ltac qhalf := unfold Qdiv in *; change (/ 2)%Q with (1 # 2)%Q in *.

(** A span no longer than the area is put inside it by [clamp], and left
    where it is when it was inside already. *)
Lemma clamp_axis_inside (x w ax aw : Q) :
  (0 <= w <= aw)%Q ->
  (ax <= clamp_axis x w ax aw /\ clamp_axis x w ax aw + w <= ax + aw)%Q.
Proof.
  intros [Hw Haw]. unfold clamp_axis.
  destruct (Qle_bool_cases aw w) as [[-> H1]|[-> H1]].
  - qhalf. split; lra.
  - destruct (Qltb_cases x ax) as [[-> H2]|[-> H2]]; [split; lra|].
    destruct (Qltb_cases (ax + aw) (x + w)) as [[-> H3]|[-> H3]];
      split; lra.
Qed.

Lemma clamp_axis_fixed (x w ax aw : Q) :
  (0 <= w <= aw)%Q -> (ax <= x)%Q -> (x + w <= ax + aw)%Q ->
  (clamp_axis x w ax aw == x)%Q.
Proof.
  intros [Hw Haw] Hx Hxw. unfold clamp_axis.
  destruct (Qle_bool_cases aw w) as [[-> H1]|[-> H1]].
  - qhalf. lra.
  - destruct (Qltb_cases x ax) as [[-> H2]|[-> H2]]; [lra|].
    destruct (Qltb_cases (ax + aw) (x + w)) as [[-> H3]|[-> H3]];
      [lra|reflexivity].
Qed.

Section PlayerMoves.
Context {pg : Pygame}.

Lemma Player_move_clamped (p : Player) (dt : Q) :
  (0 <= fw (p_rect p) <= inject_Z WINDOW_WIDTH)%Q ->
  (0 <= fh (p_rect p) <= inject_Z WINDOW_HEIGHT)%Q ->
  inside_window (p_rect (Player_move p dt)) /\
  fw (p_rect (Player_move p dt)) = fw (p_rect p) /\
  fh (p_rect (Player_move p dt)) = fh (p_rect p).
Proof.
  intros Hw Hh. split; [|split; reflexivity].
  unfold inside_window, Player_move, clamp_ip, rect_left, rect_right,
    rect_top, rect_bottom. simpl.
  destruct (clamp_axis_inside
              (rect_centerx (p_rect p)
               + fst (p_direction p) * inject_Z (p_speed p) * dt
               - fw (p_rect p) / 2)
              (fw (p_rect p)) 0 (inject_Z WINDOW_WIDTH) Hw) as [Hx1 Hx2].
  destruct (clamp_axis_inside
              (rect_centery
                 (set_centerx (p_rect p)
                    (rect_centerx (p_rect p)
                     + fst (p_direction p) * inject_Z (p_speed p) * dt))
               + snd (p_direction p) * inject_Z (p_speed p) * dt
               - fh (p_rect p) / 2)
              (fh (p_rect p)) 0 (inject_Z WINDOW_HEIGHT) Hh) as [Hy1 Hy2].
  rewrite Qplus_0_l in Hx2, Hy2.
  repeat split; assumption.
Qed.

(** X3: whatever the direction, the speed and the time step, [move]
    leaves a player that is no larger than the window inside the window,
    with its size unchanged ([clamp_ip] at line 172). *)
Theorem Player_move_inside_window (p : Player) (dt : Q) :
  (0 <= fw (p_rect p) <= inject_Z WINDOW_WIDTH)%Q ->
  (0 <= fh (p_rect p) <= inject_Z WINDOW_HEIGHT)%Q ->
  inside_window (p_rect (Player_move p dt)) /\
  fw (p_rect (Player_move p dt)) = fw (p_rect p) /\
  fh (p_rect (Player_move p dt)) = fh (p_rect p).
Proof. apply Player_move_clamped. Qed.

(** The direction [input] sets before normalising: each component is the
    difference of two keys. *)
Lemma Player_input_still (p : Player) (k : Keys) :
  K_d k = K_a k -> K_s k = K_w k ->
  p_direction (Player_input p k) = (0%Q, 0%Q).
Proof.
  intros Hx Hy. unfold Player_input. rewrite Hx, Hy.
  destruct (K_a k), (K_w k); reflexivity.
Qed.

(** X4: with no movement key held, or with opposite keys held
    together, [input] sets the direction to zero without normalising it, and
    [move] then leaves a player that is inside the window where it is. *)
Theorem Player_stays_without_keys (p : Player) (k : Keys) (dt : Q) :
  K_d k = K_a k -> K_s k = K_w k ->
  (0 <= fw (p_rect p) <= inject_Z WINDOW_WIDTH)%Q ->
  (0 <= fh (p_rect p) <= inject_Z WINDOW_HEIGHT)%Q ->
  inside_window (p_rect p) ->
  p_direction (Player_input p k) = (0%Q, 0%Q) /\
  (fx (p_rect (Player_move (Player_input p k) dt)) == fx (p_rect p))%Q /\
  (fy (p_rect (Player_move (Player_input p k) dt)) == fy (p_rect p))%Q.
Proof.
  intros Hx Hy Hw Hh (Hl & Hr & Ht & Hb).
  pose proof (Player_input_still p k Hx Hy) as Hdir.
  split; [exact Hdir|].
  unfold Player_move. rewrite Hdir.
  assert (Hrect : p_rect (Player_input p k) = p_rect p).
  { unfold Player_input. destruct (Qltb _ _); reflexivity. }
  assert (Hspeed : p_speed (Player_input p k) = p_speed p).
  { unfold Player_input. destruct (Qltb _ _); reflexivity. }
  rewrite Hrect, Hspeed.
  unfold rect_left, rect_right, rect_top, rect_bottom in *.
  unfold clamp_ip, set_centerx, set_centery, rect_centerx, rect_centery.
  simpl.
  split.
  - rewrite clamp_axis_fixed; try assumption; qhalf; lra.
  - rewrite clamp_axis_fixed; try assumption; qhalf; lra.
Qed.

(** What [input], [move] and [update_laser_cooldown] leave of the
    shooting state. *)
Lemma Player_before_shoot (p : Player) (k : Keys) (dt : Q) :
  can_shoot (Player_move (Player_input p k) dt) = can_shoot p /\
  laser_shoot_time (Player_move (Player_input p k) dt) = laser_shoot_time p /\
  laser_cooldown (Player_move (Player_input p k) dt) = laser_cooldown p.
Proof.
  unfold Player_move, Player_input. destruct (Qltb _ _); simpl; auto.
Qed.

Lemma Player_update_laser_cooldown_shoot (p : Player) (L : Z) :
  can_shoot (Player_update_laser_cooldown p L) = can_shoot p /\
  laser_shoot_time (Player_update_laser_cooldown p L) = laser_shoot_time p.
Proof.
  unfold Player_update_laser_cooldown. destruct (L >=? _); simpl; auto.
Qed.

(** X5: the weapon through one [Player.update].  A laser is fired
    exactly when SPACE was just pressed and the weapon was ready.  Firing
    records the time of the shot and leaves the weapon not ready, unless the
    cooldown has already gone by when [laser_timer] reads the clock.  A
    weapon that is not ready fires nothing, and becomes ready exactly when
    the time since the last shot is at least the cooldown, the cooldown
    being the one the player had before this update. *)
Theorem Player_update_weapon (p : Player) (dt : Q) (L : Z) (k : Keys)
    (shoot_time timer_time : Z) :
  let p' := fst (Player_update p dt L k shoot_time timer_time) in
  let fired := snd (Player_update p dt L k shoot_time timer_time) in
  (fired <> None <-> just_pressed_SPACE k = true /\ can_shoot p = true) /\
  (fired <> None ->
   laser_shoot_time p' = shoot_time /\
   can_shoot p' = (timer_time - shoot_time >=? laser_cooldown p)) /\
  (can_shoot p = false ->
   fired = None /\
   laser_shoot_time p' = laser_shoot_time p /\
   can_shoot p' = (timer_time - laser_shoot_time p >=? laser_cooldown p)) /\
  (can_shoot p = true -> just_pressed_SPACE k = false ->
   fired = None /\ can_shoot p' = true /\
   laser_shoot_time p' = laser_shoot_time p).
Proof.
  intros p' fired. subst p' fired. unfold Player_update.
  destruct (Player_before_shoot p k dt) as (Hc & Ht & Hcd).
  set (p2 := Player_move (Player_input p k) dt) in *. clearbody p2.
  unfold Player_shoot_laser, Player_laser_timer,
    Player_update_laser_cooldown.
  rewrite Hc.
  destruct (just_pressed_SPACE k) eqn:Hk, (can_shoot p) eqn:Hs;
    cbn [andb fst snd with_laser_shoot_time with_can_shoot can_shoot
         laser_shoot_time laser_cooldown negb];
    rewrite ?Hc, ?Ht, ?Hcd; cbn [negb];
    destruct (L >=? LASER_COOLDOWN_INCREASE_LEVEL);
    repeat match goal with
           | |- context [?a - ?b >=? ?c] => destruct (a - b >=? c) eqn:?
           end;
    cbn [with_laser_cooldown with_can_shoot can_shoot laser_shoot_time];
    rewrite ?Hc, ?Ht;
    repeat split; intros; try congruence; try tauto;
    try (match goal with H : _ /\ _ |- _ => destruct H end; congruence).
Qed.

(** X6: the laser [shoot_laser] creates stands on the ship where
    [move] has just put it: its bottom edge is the top edge of the player,
    it is centred on the player, it has the size of the laser image and the
    speed 700. *)
Theorem Player_update_laser_place (p : Player) (dt : Q) (L : Z) (k : Keys)
    (shoot_time timer_time : Z) (l : Laser) :
  snd (Player_update p dt L k shoot_time timer_time) = Some l ->
  let ship := p_rect (fst (Player_update p dt L k shoot_time timer_time)) in
  ship = p_rect (Player_move (Player_input p k) dt) /\
  (rect_bottom (l_rect l) == rect_top ship)%Q /\
  (rect_centerx (l_rect l) == rect_centerx ship)%Q /\
  fw (l_rect l) = inject_Z (fst laser_size) /\
  fh (l_rect l) = inject_Z (snd laser_size) /\
  l_speed l = 700.
Proof.
  unfold Player_update, Player_shoot_laser.
  set (p2 := Player_move (Player_input p k) dt).
  destruct (just_pressed_SPACE k && can_shoot p2) eqn:E; simpl;
    [|discriminate].
  intros H. injection H as <-.
  assert (Hship : forall q,
            p_rect (Player_update_laser_cooldown
                      (Player_laser_timer q timer_time) L) = p_rect q).
  { intros q. unfold Player_update_laser_cooldown, Player_laser_timer.
    destruct (L >=? _), (negb (can_shoot q)); simpl;
      try destruct (_ >=? laser_cooldown q); reflexivity. }
  rewrite Hship. simpl.
  split; [reflexivity|].
  unfold Laser_init, get_frect_midbottom, rect_midtop, rect_bottom,
    rect_centerx, rect_top. simpl.
  repeat split; try reflexivity; field.
Qed.

End PlayerMoves.

(** ** Lasers, explosions and meteors through their updates *)

Lemma update_group_In {A : Type} (update : A -> option A) (group : list A)
    (y : A) :
  In y (update_group update group) <->
  exists x, In x group /\ update x = Some y.
Proof.
  induction group as [|a group IH]; simpl.
  - split; [contradiction|]. intros (x & [] & _).
  - destruct (update a) as [a'|] eqn:E; simpl; rewrite IH; split.
    + intros [<-|(x & Hx & Hu)]; [exists a; auto|exists x; auto].
    + intros (x & [<-|Hx] & Hu); [left; congruence|right; exists x; auto].
    + intros (x & Hx & Hu). exists x; auto.
    + intros (x & [<-|Hx] & Hu); [congruence|exists x; auto].
Qed.

Lemma update_group_length {A : Type} (update : A -> option A)
    (group : list A) :
  (length (update_group update group) <= length group)%nat.
Proof.
  induction group as [|a group IH]; simpl; [lia|].
  destruct (update a); simpl; lia.
Qed.

Section SpriteUpdates.
Context {pg : Pygame}.

Lemma Laser_update_cases (l : Laser) (dt : Q) :
  (Laser_update l dt = None /\
   (rect_bottom (l_rect l) - inject_Z (l_speed l) * dt < 0)%Q) \/
  (exists l', Laser_update l dt = Some l' /\
     fx (l_rect l') = fx (l_rect l) /\
     fw (l_rect l') = fw (l_rect l) /\
     fh (l_rect l') = fh (l_rect l) /\
     l_speed l' = l_speed l /\
     (rect_bottom (l_rect l')
      == rect_bottom (l_rect l) - inject_Z (l_speed l) * dt)%Q /\
     (0 <= rect_bottom (l_rect l'))%Q).
Proof.
  unfold Laser_update.
  set (r := set_centery (l_rect l)
              (rect_centery (l_rect l) - inject_Z (l_speed l) * dt)).
  assert (Hb : (rect_bottom r
                == rect_bottom (l_rect l) - inject_Z (l_speed l) * dt)%Q).
  { subst r. unfold rect_bottom, set_centery, rect_centery. simpl. field. }
  destruct (Qltb_cases (rect_bottom r) 0) as [[-> H]|[-> H]].
  - left. split; [reflexivity|]. rewrite <- Hb. exact H.
  - right. eexists. split; [reflexivity|]. simpl.
    repeat split; try reflexivity; [exact Hb|exact H].
Qed.


(** *** Explosions *)

Lemma Qsum_nonneg (l : list Q) :
  (forall q, In q l -> (0 <= q)%Q) -> (0 <= Qsum l)%Q.
Proof.
  induction l as [|a l IH]; intros H; simpl.
  - apply Qle_refl.
  - assert (0 <= a)%Q by (apply H; left; reflexivity).
    assert (0 <= Qsum l)%Q by (apply IH; intros q Hq; apply H; right; auto).
    lra.
Qed.

Lemma Qtrunc_bounds (q : Q) (n : Z) :
  (0 <= q)%Q -> (q < inject_Z n)%Q -> 0 <= Qtrunc q < n.
Proof.
  unfold Qle, Qlt, Qtrunc. destruct q as [a b]. simpl.
  intros H0 Hn. rewrite Z.mul_1_r in *.
  split.
  - apply Z.quot_pos; lia.
  - apply Z.quot_lt_upper_bound; lia.
Qed.

Lemma AnimatedExplosion_update_cases (e : AnimatedExplosion) (dt : Q) :
  let index' := (e_index e + inject_Z (animation_speed e) * dt)%Q in
  ((index' < inject_Z EXPLOSION_FRAMES)%Q /\
   AnimatedExplosion_update e dt
   = Some (mkExplosion index' (Qtrunc index') (e_rect e)
                       (animation_speed e))) \/
  ((inject_Z EXPLOSION_FRAMES <= index')%Q /\
   AnimatedExplosion_update e dt = None).
Proof.
  intros index'. unfold AnimatedExplosion_update. fold index'.
  destruct (Qltb_cases index' (inject_Z EXPLOSION_FRAMES))
    as [[-> H]|[-> H]]; auto.
Qed.

Lemma AnimatedExplosion_updates_alive (dts : list Q) :
  forall e : AnimatedExplosion,
    0 <= animation_speed e ->
    (forall dt, In dt dts -> (0 <= dt)%Q) ->
    (e_index e < inject_Z EXPLOSION_FRAMES)%Q ->
    ((e_index e + inject_Z (animation_speed e) * Qsum dts
      < inject_Z EXPLOSION_FRAMES)%Q /\
     exists e', AnimatedExplosion_updates e dts = Some e' /\
       (e_index e'
        == e_index e + inject_Z (animation_speed e) * Qsum dts)%Q /\
       e_rect e' = e_rect e /\
       animation_speed e' = animation_speed e /\
       (dts <> [] -> e_frame e' = Qtrunc (e_index e'))) \/
    ((inject_Z EXPLOSION_FRAMES
      <= e_index e + inject_Z (animation_speed e) * Qsum dts)%Q /\
     AnimatedExplosion_updates e dts = None).
Proof.
  induction dts as [|dt rest IH]; intros e Hs Hdts Hidx.
  - left. simpl. split; [lra|]. exists e.
    split; [reflexivity|]. split; [lra|]. repeat split. congruence.
  - assert (Hdt : (0 <= dt)%Q) by (apply Hdts; left; reflexivity).
    assert (Hrest : forall q, In q rest -> (0 <= q)%Q)
      by (intros q Hq; apply Hdts; right; exact Hq).
    assert (Hsum : (0 <= Qsum rest)%Q) by (apply Qsum_nonneg; exact Hrest).
    assert (Hs' : (0 <= inject_Z (animation_speed e))%Q).
    { change 0%Q with (inject_Z 0). rewrite <- Zle_Qle. exact Hs. }
    assert (Hprod : (0 <= inject_Z (animation_speed e) * Qsum rest)%Q)
      by (apply Qmult_le_0_compat; assumption).
    simpl AnimatedExplosion_updates. simpl Qsum.
    destruct (AnimatedExplosion_update_cases e dt) as [[Hlt ->]|[Hge ->]].
    + set (e1 := mkExplosion _ _ _ _).
      destruct (IH e1 Hs Hrest Hlt)
        as [(Htot & e' & Hrun & Hi & Hr & Ha & Hf)|[Htot Hrun]];
        simpl in Htot.
      * left. split; [lra|]. exists e'. split; [exact Hrun|].
        split; [rewrite Hi; simpl; ring|].
        split; [exact Hr|]. split; [exact Ha|].
        intros _. destruct rest as [|dt' rest'].
        -- simpl in Hrun. injection Hrun as <-. reflexivity.
        -- apply Hf. discriminate.
      * right. split; [lra|exact Hrun].
    + right. split; [lra|reflexivity].
Qed.


(** *** Meteors *)


End SpriteUpdates.

(** ** The collision pass as a whole *)

Lemma filter_split_length {A : Type} (f : A -> bool) (l : list A) :
  (length (filter f l) + length (filter (fun x => negb (f x)) l)
   = length l)%nat.
Proof.
  induction l as [|x l IH]; simpl; [reflexivity|].
  destruct (f x); simpl; lia.
Qed.

Lemma filter_twice {A : Type} (f g : A -> bool) (l : list A) :
  filter g (filter f l) = filter (fun x => f x && g x) l.
Proof.
  induction l as [|x l IH]; simpl; [reflexivity|].
  destruct (f x); simpl; [destruct (g x)|]; rewrite IH; reflexivity.
Qed.

Section CollisionPass.
Context {pg : Pygame}.

Lemma laser_loop_meteors_eq (ls : list Laser) :
  forall (ms : list Meteor) (sc : Z),
    snd (fst (fst (laser_loop ls ms sc))) = filter (untouched ls) ms.
Proof.
  induction ls as [|l ls IH]; intros ms sc; simpl.
  - symmetry. clear. induction ms as [|m ms IHm]; simpl; congruence.
  - assert (Hrest : forall sc',
      snd (fst (fst (laser_loop ls
        (filter (fun m => negb (collide_mask_laser l m)) ms) sc')))
      = filter (untouched (l :: ls)) ms).
    { intros sc'. rewrite IH, filter_twice. reflexivity. }
    destruct (filter (collide_mask_laser l) ms) as [|hit hits].
    + specialize (Hrest sc).
      destruct (laser_loop ls _ sc) as [[[k m'] c] s]. exact Hrest.
    + specialize (Hrest (sc + METEOR_DESTRUCTION_POINTS)).
      destruct (laser_loop ls _ _) as [[[k m'] c] s]. exact Hrest.
Qed.

(** Every laser kept is a laser of the group, and every explosion stands
    for at least one meteor destroyed. *)
Lemma laser_loop_counts (ls : list Laser) :
  forall (ms : list Meteor) (sc : Z) kept ms' created sc',
    laser_loop ls ms sc = (kept, ms', created, sc') ->
    (length ms' + length created <= length ms)%nat /\
    (forall l, In l kept -> In l ls).
Proof.
  induction ls as [|l ls IH]; intros ms sc kept ms' created sc' Hloop;
    simpl in Hloop.
  - injection Hloop as <- <- <- <-. simpl. split; [lia|auto].
  - pose proof (filter_split_length (collide_mask_laser l) ms) as Hlen.
    destruct (filter (collide_mask_laser l) ms) as [|hit hits].
    + destruct (laser_loop ls _ sc) as [[[k m] c] s] eqn:E.
      injection Hloop as <- <- <- <-.
      destruct (IH _ _ _ _ _ _ E) as [Hc Hk]. simpl in *.
      split; [lia|]. intros l0 [<-|H0]; auto.
    + destruct (laser_loop ls _ _) as [[[k m] c] s] eqn:E.
      injection Hloop as <- <- <- <-.
      destruct (IH _ _ _ _ _ _ E) as [Hc Hk]. simpl in *.
      split; [lia|]. intros l0 H0. auto.
Qed.

Lemma check_collisions_books (p : Player) (g : Groups) (sc : Z) :
  exists created : list AnimatedExplosion,
    explosions (snd (fst (check_collisions p g sc)))
      = explosions g ++ created /\
    (length (lasers (snd (fst (check_collisions p g sc)))) + length created
     = length (lasers g))%nat /\
    (forall l, In l (lasers (snd (fst (check_collisions p g sc)))) ->
               In l (lasers g)) /\
    snd (check_collisions p g sc)
      = sc + METEOR_DESTRUCTION_POINTS * Z.of_nat (length created) /\
    (lives (fst (fst (check_collisions p g sc))) = lives p \/
     lives (fst (fst (check_collisions p g sc))) = lives p - 1) /\
    Z.of_nat (length (meteors (snd (fst (check_collisions p g sc)))))
      + Z.of_nat (length created)
      + (lives p - lives (fst (fst (check_collisions p g sc))))
      <= Z.of_nat (length (meteors g)) /\
    stars (snd (fst (check_collisions p g sc))) = stars g.
Proof.
  unfold check_collisions, spritecollide.
  pose proof (filter_split_length (collide_mask_player p) (meteors g))
    as Hlen.
  destruct (laser_loop (lasers g) _ sc) as [[[k ms'] created] s] eqn:E.
  pose proof (laser_loop_totals _ _ _ _ _ _ _ E) as [Hs Hl].
  pose proof (laser_loop_counts _ _ _ _ _ _ _ E) as [Hc Hk].
  exists created. simpl.
  split; [reflexivity|]. split; [exact Hl|]. split; [exact Hk|].
  split; [exact Hs|].
  destruct (filter (collide_mask_player p) (meteors g)) as [|hit hits].
  - simpl in Hlen. split; [left; reflexivity|]. split; [lia|reflexivity].
  - simpl in Hlen.
    destruct (Player_take_damage_lives p) as [Hd _]. rewrite Hd.
    split; [right; reflexivity|]. split; [lia|reflexivity].
Qed.

(** X10: the books of one collision pass.  The new explosions are
    appended to the old ones; each stands for one laser removed, for 20
    points, and for at least one meteor destroyed; the lasers kept are lasers
    of the group; the player loses at most one life, and only if a meteor was
    destroyed on it; the stars are not touched. *)
Theorem check_collisions_accounts (p : Player) (g : Groups) (sc : Z) :
  exists created : list AnimatedExplosion,
    explosions (snd (fst (check_collisions p g sc)))
      = explosions g ++ created /\
    (length (lasers (snd (fst (check_collisions p g sc)))) + length created
     = length (lasers g))%nat /\
    (forall l, In l (lasers (snd (fst (check_collisions p g sc)))) ->
               In l (lasers g)) /\
    snd (check_collisions p g sc)
      = sc + METEOR_DESTRUCTION_POINTS * Z.of_nat (length created) /\
    (lives (fst (fst (check_collisions p g sc))) = lives p \/
     lives (fst (fst (check_collisions p g sc))) = lives p - 1) /\
    Z.of_nat (length (meteors (snd (fst (check_collisions p g sc)))))
      + Z.of_nat (length created)
      + (lives p - lives (fst (fst (check_collisions p g sc))))
      <= Z.of_nat (length (meteors g)) /\
    stars (snd (fst (check_collisions p g sc))) = stars g.
Proof. apply check_collisions_books. Qed.

Lemma check_collisions_meteors_eq (p : Player) (g : Groups) (sc : Z) :
  meteors (snd (fst (check_collisions p g sc)))
  = filter (fun m => negb (collide_mask_player p m)
                     && forallb (fun l => negb (collide_mask_laser l m))
                                (lasers g))
           (meteors g).
Proof.
  unfold check_collisions, spritecollide.
  pose proof (laser_loop_meteors_eq (lasers g)
    (filter (fun m => negb (collide_mask_player p m)) (meteors g)) sc)
    as Hm.
  destruct (laser_loop (lasers g) _ sc) as [[[k ms'] c] s].
  simpl in Hm. simpl. rewrite Hm, filter_twice. reflexivity.
Qed.

(** Every explosion a pass creates is a new one, at the top of a laser of
    the group. *)
Lemma laser_loop_created (ls : list Laser) :
  forall (ms : list Meteor) (sc : Z) (e : AnimatedExplosion),
    In e (snd (fst (laser_loop ls ms sc))) ->
    exists l, In l ls /\ e = AnimatedExplosion_init (rect_midtop (l_rect l)).
Proof.
  induction ls as [|l ls IH]; intros ms sc e Hin; simpl in Hin.
  - contradiction.
  - destruct (filter (collide_mask_laser l) ms) as [|hit hits].
    + destruct (laser_loop ls _ sc) as [[[k m] c] s] eqn:E. simpl in Hin.
      pose proof (IH (filter (fun m0 => negb (collide_mask_laser l m0)) ms)
                     sc e) as H.
      rewrite E in H. destruct (H Hin) as (l0 & Hl0 & He).
      exists l0. split; [right; exact Hl0|exact He].
    + destruct (laser_loop ls _ _) as [[[k m] c] s] eqn:E. simpl in Hin.
      destruct Hin as [<-|Hin]; [exists l; split; [left|]; reflexivity|].
      pose proof (IH (filter (fun m0 => negb (collide_mask_laser l m0)) ms)
                     (sc + METEOR_DESTRUCTION_POINTS) e) as H.
      rewrite E in H. destruct (H Hin) as (l0 & Hl0 & He).
      exists l0. split; [right; exact Hl0|exact He].
Qed.

Lemma check_collisions_explosions (p : Player) (g : Groups) (sc : Z)
    (e : AnimatedExplosion) :
  In e (explosions (snd (fst (check_collisions p g sc)))) ->
  In e (explosions g) \/
  exists l, In l (lasers g) /\
            e = AnimatedExplosion_init (rect_midtop (l_rect l)).
Proof.
  unfold check_collisions, spritecollide.
  pose proof (laser_loop_created (lasers g)
    (filter (fun m => negb (collide_mask_player p m)) (meteors g)) sc e)
    as Hc.
  destruct (laser_loop (lasers g) _ sc) as [[[k ms'] c] s].
  simpl in *. rewrite in_app_iff. intros [H|H]; auto.
Qed.

(** X11: the meteors left by a collision pass are the meteors of the
    group, in their order, that neither the player nor any laser touches.
    Hence they do not depend on the order in which the lasers are gone
    through: two groups with the same meteors and the same lasers, listed
    in any order, are left with the same meteors. *)
Theorem check_collisions_meteors :
  (forall (p : Player) (g : Groups) (sc : Z),
     meteors (snd (fst (check_collisions p g sc)))
     = filter (fun m => negb (collide_mask_player p m)
                        && forallb (fun l => negb (collide_mask_laser l m))
                                   (lasers g))
              (meteors g)) /\
  (forall (p : Player) (g1 g2 : Groups) (sc1 sc2 : Z),
     meteors g1 = meteors g2 ->
     (forall l, In l (lasers g1) <-> In l (lasers g2)) ->
     meteors (snd (fst (check_collisions p g1 sc1)))
     = meteors (snd (fst (check_collisions p g2 sc2)))).
Proof.
  split; [apply check_collisions_meteors_eq|].
  intros p g1 g2 sc1 sc2 Hms Hls.
  rewrite !check_collisions_meteors_eq, Hms.
  apply filter_ext_in. intros m _. f_equal.
  apply eq_true_iff_eq. rewrite !forallb_forall.
  split; intros H l Hl; apply H; apply Hls; exact Hl.
Qed.

End CollisionPass.

(** The score of a pass does depend on the order of the lasers: with a
    laser over two meteors and another over the second one only, one laser
    scores when the first goes first, both score when the second does. *)
Example laser_order_changes_the_score :
  let both := example_laser 145 100 in
  let second := example_laser 200 100 in
  let ms := [example_meteor 50 80 0; example_meteor 150 80 0] in
  snd (laser_loop [both; second] ms 0) = 20 /\
  snd (laser_loop [second; both] ms 0) = 40.
Proof. vm_compute. split; reflexivity. Qed.

(** ** Events, and what a frame leaves *)

Lemma handle_events_game_over_idle (evs : list Event) (k : Keys) :
  K_SPACE k = false -> K_ESCAPE k = false ->
  forall r, handle_events evs true r k
            = Proceed (r && negb (existsb is_QUIT evs)).
Proof.
  intros Hs He. induction evs as [|e evs IH]; intros r; simpl.
  - rewrite andb_true_r. reflexivity.
  - rewrite Hs, He, IH. destruct (is_QUIT e), r; simpl; reflexivity.
Qed.

Lemma handle_events_cases (evs : list Event) (go r : bool) (k : Keys) :
  handle_events evs go r k
  = if go && negb (match evs with [] => true | _ => false end)
          && (K_SPACE k || K_ESCAPE k)
    then Returned (K_SPACE k)
    else Proceed (r && negb (existsb is_QUIT evs)).
Proof.
  destruct go; simpl.
  - destruct evs as [|e evs]; simpl; [rewrite andb_true_r; reflexivity|].
    destruct (K_SPACE k) eqn:Hs; simpl; [reflexivity|].
    destruct (K_ESCAPE k) eqn:He; simpl; [reflexivity|].
    rewrite handle_events_game_over_idle by assumption.
    destruct (is_QUIT e), r; reflexivity.
  - rewrite handle_events_playing.
    destruct (existsb is_QUIT evs), r; reflexivity.
Qed.

(** X12: the event loop of an iteration (lines 487-498).  It returns
    only on the game-over screen, only when the queue holds an event, and
    then on the keys held: restart when SPACE is held, even if ESCAPE is held
    too or a QUIT event is in the queue, quit when ESCAPE is held and SPACE
    is not.  In every other case it runs to its end, and [running] is then
    false exactly if it was false or the queue holds a QUIT event. *)
Theorem handle_events_spec (evs : list Event) (go r : bool) (k : Keys) :
  (handle_events evs go r k = Returned true <->
   go = true /\ evs <> [] /\ K_SPACE k = true) /\
  (handle_events evs go r k = Returned false <->
   go = true /\ evs <> [] /\ K_SPACE k = false /\ K_ESCAPE k = true) /\
  (forall r', handle_events evs go r k = Proceed r' ->
     r' = r && negb (existsb is_QUIT evs)) /\
  ((exists r', handle_events evs go r k = Proceed r') <->
   go = false \/ evs = [] \/ (K_SPACE k = false /\ K_ESCAPE k = false)).
Proof.
  rewrite handle_events_cases.
  destruct go, evs as [|e evs], (K_SPACE k), (K_ESCAPE k); simpl;
    repeat split; intros;
    repeat match goal with
           | H : _ /\ _ |- _ => destruct H
           | H : _ \/ _ |- _ => destruct H
           | H : exists _, _ |- _ => destruct H
           end;
    try congruence; try discriminate; eauto;
    try (right; left; reflexivity); try (right; right; auto).
Qed.

Section Frames.
Context {pg : Pygame}.

Lemma update_meteors_length (group : list Meteor) (dt : Q)
    (clock : nat -> Z) :
  forall i, (length (update_meteors group dt clock i) <= length group)%nat.
Proof.
  induction group as [|m group IH]; intros i; simpl; [lia|].
  specialize (IH (S i)). destruct (Meteor_update _ _ _); simpl; lia.
Qed.

(** What [Player.update] leaves of the cooldown, the speed and the
    rectangle. *)
Lemma Player_update_fields (p : Player) (dt : Q) (L : Z) (k : Keys)
    (t1 t2 : Z) :
  laser_cooldown (fst (Player_update p dt L k t1 t2))
    = laser_cooldown (Player_update_laser_cooldown p L) /\
  p_speed (fst (Player_update p dt L k t1 t2)) = p_speed p /\
  p_rect (fst (Player_update p dt L k t1 t2))
    = p_rect (Player_move (Player_input p k) dt).
Proof.
  unfold Player_update, Player_shoot_laser, Player_laser_timer,
    Player_update_laser_cooldown, Player_input, Player_move.
  repeat match goal with
         | |- context [if ?c then _ else _] => destruct c
         end; simpl; repeat split; reflexivity.
Qed.

Lemma check_collisions_player_fields (p : Player) (gr : Groups) (sc : Z) :
  laser_cooldown (fst (fst (check_collisions p gr sc))) = laser_cooldown p /\
  p_speed (fst (fst (check_collisions p gr sc))) = p_speed p /\
  p_rect (fst (fst (check_collisions p gr sc))) = p_rect p.
Proof.
  destruct (check_collisions_player p gr sc) as [-> | ->]; [auto|].
  unfold Player_take_damage. simpl.
  destruct (lives p - 1 <=? 0); simpl; auto.
Qed.

(** An iteration of the game-over screen that does not return. *)
Lemma frame_game_over (g g' : Game) (f : Frame) :
  game_over g = true -> frame g f = Continue g' ->
  g' = mkGame (player g) (groups g) (score g) (level g)
              (last_score_update g) (meteor_spawn_rate g) (meteor_timer g)
              (running g && negb (existsb is_QUIT (events f))) true.
Proof.
  intros Hover. unfold frame. rewrite Hover, handle_events_cases.
  destruct (_ && _ && _); [discriminate|].
  intros H. injection H as <-. reflexivity.
Qed.

(** An iteration of the playing phase: it never returns, and this is what
    it leaves. *)
Lemma frame_playing (g : Game) (f : Frame) :
  game_over g = false ->
  exists g', frame g f = Continue g' /\
    running g' = running g && negb (existsb is_QUIT (events f)) /\
    level g' = get_current_level (score g) /\
    (exists hits : nat,
       score g' = fst (survival_points (score g) (last_score_update g)
                                       (ticks f))
                  + METEOR_DESTRUCTION_POINTS * Z.of_nat hits) /\
    ((meteor_spawn_rate g' = meteor_spawn_rate g /\
      meteor_timer g' = meteor_timer g) \/
     (meteor_spawn_rate g'
        = calculate_meteor_spawn_time (get_current_level (score g)) /\
      meteor_timer g' = ticks f)) /\
    laser_cooldown (player g')
      = laser_cooldown (Player_update_laser_cooldown
                          (player g) (get_current_level (score g))) /\
    p_speed (player g') = p_speed (player g) /\
    p_rect (player g')
      = p_rect (Player_move (Player_input (player g) (keys f))
                            (inject_Z (tick f) / 1000)) /\
    stars (groups g') = stars (groups g) /\
    (length (lasers (groups g')) <= length (lasers (groups g)) + 1)%nat /\
    (length (meteors (groups g')) <= length (meteors (groups g)) + 1)%nat /\
    (length (explosions (groups g')) + length (lasers (groups g'))
     <= length (explosions (groups g)) + length (lasers (groups g)) + 1)%nat.
Proof.
  intros Hover. unfold frame. rewrite Hover, handle_events_cases. simpl.
  destruct (survival_points _ _ _) as [score1 last1] eqn:Esp.
  pose proof (Player_update_fields (player g) (inject_Z (tick f) / 1000)
                (get_current_level (score g)) (keys f)
                (shoot_ticks f) (timer_ticks f)) as (Hcd & Hsp & Hrect).
  assert (Hspawn :
    exists ms1 timer1 rate1,
      spawn_meteor (meteors (groups g)) (meteor_timer g)
        (meteor_spawn_rate g) (get_current_level (score g)) (ticks f)
        (spawn_random f) (spawn_ticks f) = (ms1, timer1, rate1) /\
      (length ms1 <= length (meteors (groups g)) + 1)%nat /\
      ((rate1 = meteor_spawn_rate g /\ timer1 = meteor_timer g) \/
       (rate1 = calculate_meteor_spawn_time (get_current_level (score g))
        /\ timer1 = ticks f))).
  { unfold spawn_meteor. destruct (_ >=? _).
    - eexists _, _, _. split; [reflexivity|].
      rewrite length_app. simpl. split; [lia|right; auto].
    - eexists _, _, _. split; [reflexivity|]. split; [lia|left; auto]. }
  destruct Hspawn as (ms1 & timer1 & rate1 & -> & Hms1 & Hrate).
  destruct (Player_update _ _ _ _ _ _) as [player1 new_laser].
  simpl in Hcd, Hsp, Hrect.
  set (lasers1 := match new_laser with
                  | Some l => lasers (groups g) ++ [l]
                  | None => lasers (groups g)
                  end).
  assert (Hl1 : (length lasers1 <= length (lasers (groups g)) + 1)%nat).
  { subst lasers1. destruct new_laser; [rewrite length_app; simpl|]; lia. }
  set (groups1 := update_all _ _ _).
  assert (Hg1 : stars groups1 = stars (groups g) /\
                (length (lasers groups1) <= length lasers1)%nat /\
                (length (meteors groups1) <= length ms1)%nat /\
                (length (explosions groups1)
                 <= length (explosions (groups g)))%nat).
  { subst groups1. unfold update_all. simpl.
    split; [reflexivity|]. split; [apply update_group_length|].
    split; [apply update_meteors_length|apply update_group_length]. }
  destruct Hg1 as (Hstars & Hlas & Hmet & Hexp).
  destruct (check_collisions_books player1 groups1 score1)
    as (created & Hex & Hcount & _ & Hscore & Hlives & Hmcount & Hst).
  destruct (check_collisions_player_fields player1 groups1 score1)
    as (Hcd2 & Hsp2 & Hrect2).
  destruct (check_collisions player1 groups1 score1)
    as [[player2 groups2] score2].
  simpl in *. eexists. split; [reflexivity|]. simpl.
  split; [destruct (existsb _ _), (running g); reflexivity|].
  split; [reflexivity|].
  split; [exists (length created); exact Hscore|].
  split; [exact Hrate|].
  split; [congruence|]. split; [congruence|]. split; [congruence|].
  split; [congruence|].
  rewrite Hex, length_app.
  split; [lia|]. split; lia.
Qed.

End Frames.

(** ** Runs *)

Section Runs.
Context {pg : Pygame}.

(** X13: when an iteration returns, and what it leaves when it does
    not.  An iteration returns only on the game-over screen with an event in
    the queue: restart with SPACE held, quit with ESCAPE held and SPACE not.
    On the game-over screen an iteration that goes on changes nothing but
    [running], which a QUIT event clears: player, sprites, score, level and
    timers are frozen.  In the playing phase an iteration always goes on,
    and a QUIT event only clears [running]. *)
Theorem frame_outcomes (g : Game) (f : Frame) :
  (frame g f = Return true <->
   game_over g = true /\ events f <> [] /\ K_SPACE (keys f) = true) /\
  (frame g f = Return false <->
   game_over g = true /\ events f <> [] /\
   K_SPACE (keys f) = false /\ K_ESCAPE (keys f) = true) /\
  (game_over g = true -> forall g', frame g f = Continue g' ->
   g' = mkGame (player g) (groups g) (score g) (level g)
               (last_score_update g) (meteor_spawn_rate g) (meteor_timer g)
               (running g && negb (existsb is_QUIT (events f))) true) /\
  (game_over g = false ->
   exists g', frame g f = Continue g' /\
     running g' = running g && negb (existsb is_QUIT (events f))).
Proof.
  destruct (game_over g) eqn:Hover.
  - split; [|split; [|split]].
    + unfold frame. rewrite Hover, handle_events_cases.
      destruct (events f) as [|e evs], (K_SPACE (keys f)),
        (K_ESCAPE (keys f)); simpl; split; intros H;
        try discriminate; try (destruct H as (_ & H1 & H2); congruence);
        repeat split; congruence.
    + unfold frame. rewrite Hover, handle_events_cases.
      destruct (events f) as [|e evs], (K_SPACE (keys f)),
        (K_ESCAPE (keys f)); simpl; split; intros H;
        try discriminate;
        try (destruct H as (_ & H1 & H2 & H3); congruence);
        repeat split; congruence.
    + intros _ g'. apply frame_game_over. exact Hover.
    + discriminate.
  - destruct (frame_playing g f Hover) as (g' & Hframe & Hrun & _).
    split; [|split; [|split]].
    + split; [congruence|]. intros [H _]. discriminate.
    + split; [congruence|]. intros [H _]. discriminate.
    + discriminate.
    + intros _. exists g'. auto.
Qed.

Lemma frame_Return_game_over (g : Game) (f : Frame) (b : bool) :
  frame g f = Return b -> game_over g = true.
Proof.
  destruct (game_over g) eqn:Hover; [reflexivity|].
  destruct (frame_playing g f Hover) as (g' & Hframe & _). congruence.
Qed.

Lemma run_game_restart (frames : list Frame) :
  forall g, reachable g -> run_game g frames = Return true ->
    exists a, In a (states g frames) /\
              game_over a = true /\ lives (player a) = 0.
Proof.
  induction frames as [|f rest IH]; intros g Hg Hrun; simpl in Hrun.
  - destruct (running g); discriminate.
  - destruct (running g) eqn:Hr; [|discriminate].
    destruct (frame g f) as [g'|b] eqn:Hframe.
    + destruct (IH g' (reachable_frame g g' f Hg Hr Hframe) Hrun)
        as (a & Hin & Ha).
      exists a. split; [|exact Ha]. simpl. rewrite Hr, Hframe. right.
      exact Hin.
    + exists g. split; [simpl; left; reflexivity|].
      pose proof (frame_Return_game_over g f b Hframe) as Hover.
      split; [exact Hover|].
      destruct (reachable_lives_invariant g Hg) as (Hrange & Halive & Hgo).
      rewrite Hover in Hgo. destruct (alive (player g)); [discriminate|].
      symmetry in Halive. apply Z.ltb_ge in Halive. lia.
Qed.

(** X14: how a run ends.  A QUIT event met while playing lets the
    iteration run to its end and then ends the run with [False] (no
    restart), whatever frames would follow.  A run returns [True] (restart)
    only from a game-over state, which it has reached with the lives at 0.
    A loop entered with [running] false returns [False] at once. *)
Theorem run_game_endings :
  (forall g f rest,
     running g = true -> game_over g = false ->
     existsb is_QUIT (events f) = true ->
     run_game g (f :: rest) = Return false /\
     exists g', frame g f = Continue g' /\ states g (f :: rest) = [g; g']) /\
  (forall g frames,
     reachable g -> run_game g frames = Return true ->
     exists a, In a (states g frames) /\
               game_over a = true /\ lives (player a) = 0) /\
  (forall g frames, running g = false -> run_game g frames = Return false).
Proof.
  split; [|split].
  - intros g f rest Hr Hover Hquit.
    destruct (frame_playing g f Hover) as (g' & Hframe & Hrun & _).
    rewrite Hr, Hquit in Hrun. simpl in Hrun.
    simpl. rewrite Hr, Hframe.
    split.
    + destruct rest; simpl; rewrite Hrun; reflexivity.
    + exists g'. split; [reflexivity|].
      destruct rest; simpl; rewrite ?Hrun; reflexivity.
  - intros g frames. apply run_game_restart.
  - intros g frames Hr. destruct frames; simpl; rewrite Hr; reflexivity.
Qed.

(** *** The score and the difficulty along a run *)

Lemma weapon_cooldown_cases (L : Z) :
  (L < 3 /\ weapon_cooldown L = 400) \/
  (3 <= L <= 6 /\ weapon_cooldown L = 200 + 100 * L) \/
  (6 < L /\ weapon_cooldown L = 800).
Proof.
  unfold weapon_cooldown. rewrite update_laser_cooldown_fresh.
  apply spec_weapon_cooldown_cases.
Qed.

Lemma get_current_level_range (s : Z) :
  0 <= s -> 1 <= get_current_level s <= 8.
Proof.
  intros Hs. rewrite get_current_level_closed.
  destruct (Z.ltb_spec s 0); [lia|]. Z.div_mod_to_equations. lia.
Qed.

Lemma run_invariant_init (rand_pos : nat -> Z * Z) (t1 t2 : Z) :
  run_invariant (run_game_init rand_pos t1 t2).
Proof.
  unfold run_invariant. simpl. repeat split; try discriminate; reflexivity.
Qed.

(** One iteration keeps the invariant and never eases the game. *)
Lemma frame_run_invariant (g g' : Game) (f : Frame) :
  run_invariant g -> frame g f = Continue g' ->
  run_invariant g' /\
  score g <= score g' /\ level g <= level g' /\
  laser_cooldown (player g) <= laser_cooldown (player g') /\
  meteor_spawn_rate g' <= meteor_spawn_rate g.
Proof.
  unfold run_invariant. change MAX_LEVEL with 8.
  intros (Hs & Hmod & Hlev & Hlag & Hrate & Hcd & Hspeed) Hframe.
  destruct (game_over g) eqn:Hover.
  - rewrite (frame_game_over g g' f Hover Hframe). simpl.
    repeat split; try assumption; try lia.
  - destruct (frame_playing g f Hover)
      as (g1 & Hframe1 & _ & Hlevel & (hits & Hscore) & Hspawn
          & Hcool & Hsp & _).
    rewrite Hframe in Hframe1. injection Hframe1 as <-.
    assert (Hs' : score g <= score g' /\ score g' mod 10 = 0).
    { unfold survival_points, SURVIVAL_POINTS_PER_SECOND,
        METEOR_DESTRUCTION_POINTS in Hscore.
      destruct (_ >=? _) in Hscore; cbn [fst] in Hscore;
        split; try lia; Z.div_mod_to_equations; lia. }
    destruct Hs' as [Hs1 Hmod1].
    pose proof (get_current_level_range (score g) Hs) as Hrange.
    pose proof (level_for_mono LEVEL_THRESHOLDS _ _ Hs1) as Hmono.
    fold (get_current_level (score g)) in Hmono.
    fold (get_current_level (score g')) in Hmono.
    assert (Hcd' : laser_cooldown (player g') = weapon_cooldown (level g')).
    { rewrite Hcool, Hlevel, update_laser_cooldown_eq.
      unfold LASER_COOLDOWN_INCREASE_LEVEL.
      destruct (Z.ltb_spec (get_current_level (score g)) 3) as [H3|H3].
      - rewrite Hcd.
        destruct (weapon_cooldown_cases (level g))
          as [[? ->]|[[? ?]|[? ?]]]; try lia.
        destruct (weapon_cooldown_cases (get_current_level (score g)))
          as [[? ->]|[[? ?]|[? ?]]]; lia.
      - unfold weapon_cooldown. rewrite update_laser_cooldown_eq.
        unfold LASER_COOLDOWN_INCREASE_LEVEL.
        destruct (Z.ltb_spec (get_current_level (score g)) 3); [lia|].
        reflexivity. }
    assert (Hanti : calculate_meteor_spawn_time (level g')
                    <= calculate_meteor_spawn_time (level g)).
    { apply calculate_meteor_spawn_time_antitone. lia. }
    assert (H600 : calculate_meteor_spawn_time (level g') <= 600).
    { unfold calculate_meteor_spawn_time, BASE_METEOR_SPAWN_RATE,
        METEOR_SPAWN_RATE_DECREASE, MIN_METEOR_SPAWN_RATE. lia. }
    rewrite <- Hlevel in Hspawn.
    split; [|split; [lia|split; [lia|split]]].
    + repeat split; try lia; try congruence;
        destruct Hspawn as [[-> _]|[-> _]]; lia.
    + rewrite Hcd, Hcd'.
      destruct (weapon_cooldown_cases (level g))
        as [[? ->]|[[? ->]|[? ->]]],
        (weapon_cooldown_cases (level g'))
        as [[? ->]|[[? ->]|[? ->]]]; lia.
    + destruct Hspawn as [[-> _]|[-> _]]; lia.
Qed.

Lemma reachable_run_invariant (g : Game) :
  reachable g -> run_invariant g.
Proof.
  induction 1 as [rand_pos t1 t2 | g g' f _ IH _ Hframe].
  - apply run_invariant_init.
  - exact (proj1 (frame_run_invariant g g' f IH Hframe)).
Qed.

(** X15: in every reachable state of a run the score is a multiple of
    10 and not negative; the level stored is between 1 and [MAX_LEVEL] and
    is at most the level of the score (it is the level of the score one
    iteration earlier); the spawn interval stored is between the interval of
    the level stored and 600 ms; the cooldown of the player is the cooldown
    of the level stored, hence between [INITIAL_LASER_COOLDOWN] and
    [MAX_LASER_COOLDOWN]; the speed of the player is [PLAYER_SPEED]. *)
Theorem reachable_score_and_difficulty (g : Game) :
  reachable g ->
  0 <= score g /\ score g mod 10 = 0 /\
  1 <= level g <= MAX_LEVEL /\
  level g <= get_current_level (score g) /\
  calculate_meteor_spawn_time (level g) <= meteor_spawn_rate g <= 600 /\
  laser_cooldown (player g) = weapon_cooldown (level g) /\
  INITIAL_LASER_COOLDOWN <= laser_cooldown (player g)
                         <= MAX_LASER_COOLDOWN /\
  p_speed (player g) = PLAYER_SPEED.
Proof.
  intros Hg.
  destruct (reachable_run_invariant g Hg)
    as (Hs & Hmod & Hlev & Hlag & Hrate & Hcd & Hspeed).
  repeat split; try assumption; try lia;
    rewrite Hcd; unfold INITIAL_LASER_COOLDOWN, MAX_LASER_COOLDOWN;
    destruct (weapon_cooldown_cases (level g))
      as [[? ->]|[[? ->]|[? ->]]]; lia.
Qed.

(** X16: a run never gets easier and never takes points back.  From
    one reachable state to the next the score and the level do not go down,
    the cooldown of the player does not go down, and the spawn interval does
    not go up. *)
Theorem frame_never_eases (g g' : Game) (f : Frame) :
  reachable g -> running g = true -> frame g f = Continue g' ->
  score g <= score g' /\ level g <= level g' /\
  laser_cooldown (player g) <= laser_cooldown (player g') /\
  meteor_spawn_rate g' <= meteor_spawn_rate g.
Proof.
  intros Hg _ Hframe.
  exact (proj2 (frame_run_invariant g g' f
                  (reachable_run_invariant g Hg) Hframe)).
Qed.

(** X17: an iteration creates at most one laser and at most one
    meteor, and every new explosion replaces a laser: the number of lasers
    and the number of meteors grow by at most one, and so does the number of
    lasers and explosions together. *)
Theorem frame_population (g g' : Game) (f : Frame) :
  frame g f = Continue g' ->
  (length (lasers (groups g')) <= length (lasers (groups g)) + 1)%nat /\
  (length (meteors (groups g')) <= length (meteors (groups g)) + 1)%nat /\
  (length (explosions (groups g')) + length (lasers (groups g'))
   <= length (explosions (groups g)) + length (lasers (groups g)) + 1)%nat.
Proof.
  intros Hframe. destruct (game_over g) eqn:Hover.
  - rewrite (frame_game_over g g' f Hover Hframe). simpl. lia.
  - destruct (frame_playing g f Hover) as (g1 & Hframe1 & Hrest).
    rewrite Hframe in Hframe1. injection Hframe1 as <-.
    destruct Hrest as (_ & _ & _ & _ & _ & _ & _ & _ & H). exact H.
Qed.

(** *** Stars and player *)

Lemma frame_stars (g g' : Game) (f : Frame) :
  frame g f = Continue g' -> stars (groups g') = stars (groups g).
Proof.
  intros Hframe. destruct (game_over g) eqn:Hover.
  - rewrite (frame_game_over g g' f Hover Hframe). reflexivity.
  - destruct (frame_playing g f Hover) as (g1 & Hframe1 & Hrest).
    rewrite Hframe in Hframe1. injection Hframe1 as <-.
    destruct Hrest as (_ & _ & _ & _ & _ & _ & _ & H & _). exact H.
Qed.

Lemma states_stars (frames : list Frame) :
  forall g a, In a (states g frames) ->
              stars (groups a) = stars (groups g).
Proof.
  induction frames as [|f rest IH]; intros g a Hin; simpl in Hin.
  - destruct Hin as [<-|[]]. reflexivity.
  - destruct Hin as [<-|Hin]; [reflexivity|].
    destruct (running g); [|contradiction].
    destruct (frame g f) as [g'|] eqn:Hframe; [|contradiction].
    rewrite (IH g' a Hin). exact (frame_stars g g' f Hframe).
Qed.

(** X18: the stars are decoration.  The 20 stars created at the start
    of a run are the stars of every state of the run, unchanged; each is
    centred on the random point drawn for it, which is a point of the
    window when drawn from [randint(0, WINDOW_WIDTH)] and
    [randint(0, WINDOW_HEIGHT)]. *)
Theorem stars_never_change (rand_pos : nat -> Z * Z) (t_score t_meteor : Z)
    (frames : list Frame) :
  (forall g, In g (states (run_game_init rand_pos t_score t_meteor) frames) ->
     stars (groups g) = spawn_stars 20 rand_pos /\
     length (stars (groups g)) = 20%nat) /\
  (forall s, In s (spawn_stars 20 rand_pos) ->
     exists i, (i < 20)%nat /\ s = Star_init (rand_pos i) /\
       (rect_centerx (s_rect s) == inject_Z (fst (rand_pos i)))%Q /\
       (rect_centery (s_rect s) == inject_Z (snd (rand_pos i)))%Q /\
       (0 <= fst (rand_pos i) <= WINDOW_WIDTH ->
        0 <= snd (rand_pos i) <= WINDOW_HEIGHT ->
        (0 <= rect_centerx (s_rect s) <= inject_Z WINDOW_WIDTH)%Q /\
        (0 <= rect_centery (s_rect s) <= inject_Z WINDOW_HEIGHT)%Q)).
Proof.
  split.
  - intros g Hin. rewrite (states_stars frames _ g Hin).
    change (stars (groups (run_game_init rand_pos t_score t_meteor)))
      with (spawn_stars 20 rand_pos).
    split; [reflexivity|]. unfold spawn_stars.
    rewrite length_map, length_seq. reflexivity.
  - intros s Hin. unfold spawn_stars in Hin. apply in_map_iff in Hin.
    destruct Hin as (i & <- & Hi). apply in_seq in Hi.
    exists i. split; [lia|]. split; [reflexivity|].
    assert (Hc : (rect_centerx (s_rect (Star_init (rand_pos i)))
                  == inject_Z (fst (rand_pos i)))%Q /\
                 (rect_centery (s_rect (Star_init (rand_pos i)))
                  == inject_Z (snd (rand_pos i)))%Q).
    { unfold Star_init, get_frect_center, rect_centerx, rect_centery.
      simpl. split; field. }
    destruct Hc as [Hcx Hcy]. split; [exact Hcx|]. split; [exact Hcy|].
    intros Hx Hy. rewrite Hcx, Hcy.
    change 0%Q with (inject_Z 0). rewrite <- !Zle_Qle. lia.
Qed.

Lemma Player_input_rect (p : Player) (k : Keys) :
  p_rect (Player_input p k) = p_rect p.
Proof. unfold Player_input. destruct (Qltb _ _); reflexivity. Qed.

(** X19: the player never leaves the window.  If the image of the
    player is no larger than the window, then in every reachable state of a
    run the rectangle of the player lies inside the window and has the size
    of the image. *)
Theorem player_stays_in_window :
  0 <= fst player_size <= WINDOW_WIDTH ->
  0 <= snd player_size <= WINDOW_HEIGHT ->
  forall g, reachable g ->
    inside_window (p_rect (player g)) /\
    fw (p_rect (player g)) = inject_Z (fst player_size) /\
    fh (p_rect (player g)) = inject_Z (snd player_size).
Proof.
  intros Hw Hh.
  assert (Hw' : (0 <= inject_Z (fst player_size)
                 <= inject_Z WINDOW_WIDTH)%Q).
  { change 0%Q with (inject_Z 0). rewrite <- !Zle_Qle. exact Hw. }
  assert (Hh' : (0 <= inject_Z (snd player_size)
                 <= inject_Z WINDOW_HEIGHT)%Q).
  { change 0%Q with (inject_Z 0). rewrite <- !Zle_Qle. exact Hh. }
  induction 1 as [rand_pos t1 t2 | g g' f _ IH _ Hframe].
  - simpl. split; [|split; reflexivity].
    unfold inside_window, get_frect_center, rect_left, rect_right, rect_top,
      rect_bottom. simpl.
    change (inject_Z (WINDOW_WIDTH / 2)) with 640%Q.
    change (inject_Z (WINDOW_HEIGHT / 2)) with 360%Q.
    change (inject_Z WINDOW_WIDTH) with 1280%Q in *.
    change (inject_Z WINDOW_HEIGHT) with 720%Q in *.
    generalize dependent (inject_Z (fst player_size)).
    generalize dependent (inject_Z (snd player_size)).
    intros h Hh' w Hw'. qhalf. repeat split; lra.
  - destruct IH as (Hin & Hfw & Hfh).
    destruct (game_over g) eqn:Hover.
    + rewrite (frame_game_over g g' f Hover Hframe). simpl. auto.
    + destruct (frame_playing g f Hover) as (g1 & Hframe1 & Hrest).
      rewrite Hframe in Hframe1. injection Hframe1 as <-.
      destruct Hrest as (_ & _ & _ & _ & _ & _ & Hrect & _).
      rewrite Hrect.
      destruct (Player_move_clamped
                  (Player_input (player g) (keys f))
                  (inject_Z (tick f) / 1000)) as (Hin' & Hfw' & Hfh');
        rewrite ?Player_input_rect, ?Hfw, ?Hfh; try assumption.
      rewrite Hfw', Hfh', Player_input_rect. auto.
Qed.

End Runs.

(** ** The sprites of a run *)

Section SpritesInRuns.
Context {pg : Pygame}.

Lemma Player_update_new_laser (p : Player) (dt : Q) (L : Z) (k : Keys)
    (t1 t2 : Z) (l : Laser) :
  snd (Player_update p dt L k t1 t2) = Some l ->
  exists pos, l = Laser_init pos.
Proof.
  unfold Player_update, Player_shoot_laser.
  destruct (_ && _); simpl; [|discriminate].
  intros H. injection H as <-. eexists. reflexivity.
Qed.

Lemma Laser_update_ok (l l' : Laser) (dt : Q) :
  l_speed l = 700 ->
  fw (l_rect l) = inject_Z (fst laser_size) ->
  fh (l_rect l) = inject_Z (snd laser_size) ->
  Laser_update l dt = Some l' -> laser_ok l'.
Proof.
  intros Hs Hw Hh Hu.
  destruct (Laser_update_cases l dt)
    as [[Hn _]|(l1 & Hu1 & _ & Hw1 & Hh1 & Hs1 & _ & Hpos)];
    [congruence|].
  rewrite Hu in Hu1. injection Hu1 as <-.
  unfold laser_ok. repeat split; congruence.
Qed.

Lemma Meteor_init_falling (L : Z) (r : MeteorRandom) (t : Z) :
  1 <= L <= 8 ->
  falling (Meteor_init (1 + inject_Z (L - 1) * (1 # 10)) r t).
Proof.
  intros HL. unfold falling, Meteor_init. simpl.
  split; [reflexivity|].
  assert (H0 : (inject_Z 0 <= inject_Z (L - 1))%Q)
    by (rewrite <- Zle_Qle; lia).
  assert (H7 : (inject_Z (L - 1) <= inject_Z 7)%Q)
    by (rewrite <- Zle_Qle; lia).
  change (inject_Z 0) with 0%Q in H0. change (inject_Z 7) with 7%Q in H7.
  generalize dependent (inject_Z (L - 1)). intros x H0 H7. split; lra.
Qed.

Lemma Meteor_advance_ok (m m' : Meteor) (dt : Q) (t : Z) :
  falling m -> Meteor_update m dt t = Some m' -> meteor_ok m'.
Proof.
  intros Hf Hu.
  assert (Hm : m' = Meteor_advance m dt).
  { unfold Meteor_update in Hu. destruct (_ || _) in Hu; [discriminate|].
    injection Hu as <-. reflexivity. }
  subst m'. apply (proj2 (Meteor_update_cases m dt t)) in Hu.
  unfold meteor_ok. split; [exact Hf|]. split; [reflexivity|]. tauto.
Qed.

Lemma update_meteors_In (dt : Q) (clock : nat -> Z) (group : list Meteor) :
  forall i m', In m' (update_meteors group dt clock i) ->
    exists m j, In m group /\ Meteor_update m dt (clock j) = Some m'.
Proof.
  induction group as [|m group IH]; intros i m' Hin; simpl in Hin.
  - contradiction.
  - destruct (Meteor_update m dt (clock i)) as [m1|] eqn:E.
    + destruct Hin as [<-|Hin].
      * exists m, i. split; [left; reflexivity|exact E].
      * destruct (IH _ _ Hin) as (m0 & j & H0 & Hu).
        exists m0, j. split; [right; exact H0|exact Hu].
    + destruct (IH _ _ Hin) as (m0 & j & H0 & Hu).
      exists m0, j. split; [right; exact H0|exact Hu].
Qed.

Lemma AnimatedExplosion_init_ok (pos : Vec2) :
  explosion_ok (AnimatedExplosion_init pos).
Proof.
  unfold explosion_ok, AnimatedExplosion_init. simpl.
  repeat split; reflexivity.
Qed.

Lemma AnimatedExplosion_update_ok (e e' : AnimatedExplosion) (dt : Q) :
  explosion_ok e -> AnimatedExplosion_update e dt = Some e' ->
  explosion_ok e'.
Proof.
  intros (Hs & _ & Hw & Hh) Hu.
  destruct (AnimatedExplosion_update_cases e dt) as [[Hlt Hu1]|[_ Hn]];
    [|congruence].
  rewrite Hu in Hu1. injection Hu1 as ->.
  unfold explosion_ok. simpl. repeat split; assumption.
Qed.

Lemma sprites_invariant_init (rand_pos : nat -> Z * Z) (t1 t2 : Z) :
  sprites_invariant (run_game_init rand_pos t1 t2).
Proof. unfold sprites_invariant. simpl. repeat split; contradiction. Qed.

Lemma frame_sprites_invariant (g g' : Game) (f : Frame) :
  run_invariant g -> sprites_invariant g -> frame g f = Continue g' ->
  sprites_invariant g'.
Proof.
  intros Hrun (Hlas & Hmet & Hexp) Hframe.
  destruct (game_over g) eqn:Hover.
  { rewrite (frame_game_over g g' f Hover Hframe). simpl.
    unfold sprites_invariant. simpl. auto. }
  assert (HL : 1 <= get_current_level (score g) <= 8).
  { apply get_current_level_range. apply Hrun. }
  revert Hframe. unfold frame. rewrite Hover, handle_events_cases. simpl.
  destruct (survival_points _ _ _) as [score1 last1].
  assert (Hms1 : forall m,
    In m (fst (fst (spawn_meteor (meteors (groups g)) (meteor_timer g)
        (meteor_spawn_rate g) (get_current_level (score g)) (ticks f)
        (spawn_random f) (spawn_ticks f)))) -> falling m).
  { intros m. unfold spawn_meteor. destruct (_ >=? _); simpl.
    - rewrite in_app_iff. intros [H|[<-|[]]].
      + apply (Hmet m H).
      + apply Meteor_init_falling. exact HL.
    - intros H. apply (Hmet m H). }
  destruct (spawn_meteor _ _ _ _ _ _ _) as [[ms1 timer1] rate1].
  simpl in Hms1.
  pose proof (Player_update_new_laser (player g) (inject_Z (tick f) / 1000)
                (get_current_level (score g)) (keys f)
                (shoot_ticks f) (timer_ticks f)) as Hnew.
  destruct (Player_update _ _ _ _ _ _) as [player1 new_laser].
  simpl in Hnew.
  set (lasers1 := match new_laser with
                  | Some l => lasers (groups g) ++ [l]
                  | None => lasers (groups g)
                  end).
  assert (Hl1 : forall l, In l lasers1 ->
            l_speed l = 700 /\ fw (l_rect l) = inject_Z (fst laser_size) /\
            fh (l_rect l) = inject_Z (snd laser_size)).
  { intros l. subst lasers1. destruct new_laser as [l0|].
    - rewrite in_app_iff. intros [H|[<-|[]]].
      + destruct (Hlas l H) as (? & ? & ? & _). auto.
      + destruct (Hnew l0 eq_refl) as [pos ->]. simpl. auto.
    - intros H. destruct (Hlas l H) as (? & ? & ? & _). auto. }
  set (groups1 := update_all _ _ _).
  assert (Hlas1 : forall l, In l (lasers groups1) -> laser_ok l).
  { intros l' Hin. subst groups1. unfold update_all in Hin. simpl in Hin.
    apply update_group_In in Hin. destruct Hin as (l & Hl & Hu).
    destruct (Hl1 l Hl) as (Hs & Hw & Hh).
    exact (Laser_update_ok l l' _ Hs Hw Hh Hu). }
  assert (Hmet1 : forall m, In m (meteors groups1) -> meteor_ok m).
  { intros m' Hin. subst groups1. unfold update_all in Hin. simpl in Hin.
    apply update_meteors_In in Hin. destruct Hin as (m & j & Hm & Hu).
    exact (Meteor_advance_ok m m' _ _ (Hms1 m Hm) Hu). }
  assert (Hexp1 : forall e, In e (explosions groups1) -> explosion_ok e).
  { intros e' Hin. subst groups1. unfold update_all in Hin. simpl in Hin.
    apply update_group_In in Hin. destruct Hin as (e & He & Hu).
    exact (AnimatedExplosion_update_ok e e' _ (Hexp e He) Hu). }
  destruct (check_collisions_books player1 groups1 score1)
    as (created & _ & _ & Hsub & _).
  pose proof (check_collisions_meteors_eq player1 groups1 score1) as Hmeq.
  pose proof (check_collisions_explosions player1 groups1 score1) as Hex.
  destruct (check_collisions player1 groups1 score1)
    as [[player2 groups2] score2].
  simpl in Hsub, Hmeq, Hex.
  intros H. injection H as <-. unfold sprites_invariant. simpl.
  split; [|split].
  - intros l Hl. apply Hlas1. apply Hsub. exact Hl.
  - intros m Hm. rewrite Hmeq in Hm. apply filter_In in Hm.
    apply Hmet1. tauto.
  - intros e He. destruct (Hex e He) as [H|(l & _ & ->)].
    + apply Hexp1. exact H.
    + apply AnimatedExplosion_init_ok.
Qed.

Lemma reachable_sprites_invariant (g : Game) :
  reachable g -> sprites_invariant g.
Proof.
  induction 1 as [rand_pos t1 t2 | g g' f Hg IH _ Hframe].
  - apply sprites_invariant_init.
  - exact (frame_sprites_invariant g g' f
             (reachable_run_invariant g Hg) IH Hframe).
Qed.


End SpritesInRuns.

(** ** The hearts *)

Lemma display_ui_hearts_eq (n : Z) :
  display_ui_hearts n
  = [(0 <? n, mkFRect (inject_Z 1160 - inject_Z 30) (inject_Z 20)
                      (inject_Z 30) (inject_Z 30));
     (1 <? n, mkFRect (inject_Z 1200 - inject_Z 30) (inject_Z 20)
                      (inject_Z 30) (inject_Z 30));
     (2 <? n, mkFRect (inject_Z 1240 - inject_Z 30) (inject_Z 20)
                      (inject_Z 30) (inject_Z 30))].
Proof. reflexivity. Qed.

(** X21: the hearts [display_ui] draws.  There are [INITIAL_LIVES]
    of them, in squares of 30 pixels at the top right of the window, 10
    pixels apart, inside the window and not overlapping.  The full hearts
    are the first ones from the left, as many as the lives given, counted
    between 0 and [INITIAL_LIVES]: lives are lost from the right, a negative
    number shows no full heart and a number above [INITIAL_LIVES] shows
    them all full.  For the lives of a run, which are between 0 and
    [INITIAL_LIVES], the number of full hearts is the number of lives. *)
Theorem display_ui_hearts_spec (n : Z) :
  length (display_ui_hearts n) = Z.to_nat INITIAL_LIVES /\
  map fst (display_ui_hearts n) = [0 <? n; 1 <? n; 2 <? n] /\
  Z.of_nat (length (filter fst (display_ui_hearts n)))
    = Z.max 0 (Z.min n INITIAL_LIVES) /\
  (0 <= n <= INITIAL_LIVES ->
   Z.of_nat (length (filter fst (display_ui_hearts n))) = n) /\
  (forall h, In h (display_ui_hearts n) ->
     inside_window (snd h) /\ fw (snd h) = 30%Q /\ fh (snd h) = 30%Q /\
     (rect_top (snd h) == 20)%Q) /\
  (map (fun h => Qred (rect_left (snd h))) (display_ui_hearts n)
   = [1130%Q; 1170%Q; 1210%Q]) /\
  (forall i j hi hj,
     nth_error (display_ui_hearts n) i = Some hi ->
     nth_error (display_ui_hearts n) j = Some hj ->
     i <> j -> rects_overlap (snd hi) (snd hj) = false).
Proof.
  rewrite display_ui_hearts_eq.
  split; [reflexivity|]. split; [reflexivity|].
  split; [|split; [|split; [|split]]].
  - unfold INITIAL_LIVES. cbn [filter fst].
    destruct (Z.ltb_spec 0 n), (Z.ltb_spec 1 n), (Z.ltb_spec 2 n);
      cbn [length]; lia.
  - unfold INITIAL_LIVES. cbn [filter fst].
    destruct (Z.ltb_spec 0 n), (Z.ltb_spec 1 n), (Z.ltb_spec 2 n);
      cbn [length]; lia.
  - intros h [<-|[<-|[<-|[]]]]; unfold inside_window; cbn;
      repeat split; try reflexivity; unfold Qle; cbn; lia.
  - reflexivity.
  - intros [|[|[|i]]] [|[|[|j]]] hi hj Hi Hj Hij; cbn in Hi, Hj;
      try congruence;
      try (destruct i; discriminate); try (destruct j; discriminate);
      injection Hi as <-; injection Hj as <-; reflexivity.
Qed.

(** ** Instances of the properties above *)

Lemma example_state_reachable (n : nat) : reachable (example_state n).
Proof.
  unfold example_state.
  apply (states_reachable (example_frames 1000 n) example_start).
  - apply reachable_init.
  - destruct (states_head (example_frames 1000 n) example_start)
      as [tl ->].
    apply last_cons_In.
Qed.

Lemma example_first_frame :
  frame example_start (example_frame 1000 1000)
  = Continue (example_state 1).
Proof. vm_compute. reflexivity. Qed.

(** A player sent far to the right is stopped by the edge of the window. *)
Lemma Player_move_inside_window_witness :
  inside_window
    (p_rect (Player_move (with_direction Player_init (1%Q, 0%Q)) 10)).
Proof.
  apply (Player_move_inside_window
           (with_direction Player_init (1%Q, 0%Q)) 10);
    split; vm_compute; discriminate.
Defined.

(** The new player, no key held, stays at the centre of the window. *)
Lemma Player_stays_without_keys_witness :
  (fx (p_rect (Player_move
                 (Player_input Player_init (keys example_idle_frame))
                 (1 # 100)))
   == fx (p_rect Player_init))%Q.
Proof.
  refine (proj1 (proj2 (Player_stays_without_keys Player_init
                          (keys example_idle_frame) (1 # 100)
                          eq_refl eq_refl _ _ _))).
  - split; vm_compute; discriminate.
  - split; vm_compute; discriminate.
  - unfold inside_window. repeat split; vm_compute; discriminate.
Defined.

(** The laser the new player fires has the speed 700. *)
Lemma Player_update_laser_place_witness :
  l_speed (Laser_init
             (rect_midtop
                (p_rect (Player_move
                           (Player_input Player_init example_fire_keys)
                           (1 # 100))))) = 700.
Proof.
  apply (Player_update_laser_place Player_init (1 # 100) 1
           example_fire_keys 1000 1000).
  reflexivity.
Defined.


(** The score of the example run after three frames is a multiple of
    10. *)
Lemma reachable_score_and_difficulty_witness :
  score (example_state 3) mod 10 = 0.
Proof.
  apply (reachable_score_and_difficulty (example_state 3)).
  apply example_state_reachable.
Defined.

(** The first frame of the example run does not lower the score. *)
Lemma frame_never_eases_witness :
  score example_start <= score (example_state 1).
Proof.
  apply (frame_never_eases example_start (example_state 1)
           (example_frame 1000 1000)).
  - apply reachable_init.
  - reflexivity.
  - apply example_first_frame.
Defined.

(** The first frame of the example run leaves at most one laser. *)
Lemma frame_population_witness :
  (length (lasers (groups (example_state 1)))
   <= length (lasers (groups example_start)) + 1)%nat.
Proof.
  apply (frame_population example_start (example_state 1)
           (example_frame 1000 1000)).
  apply example_first_frame.
Defined.

(** The player of the example run is inside the window after three
    frames. *)
Lemma player_stays_in_window_witness :
  inside_window (p_rect (player (example_state 3))).
Proof.
  apply player_stays_in_window.
  - split; discriminate.
  - split; discriminate.
  - apply example_state_reachable.
Defined.

Lemma example_far_state_reachable : reachable example_far_state.
Proof.
  apply (reachable_frame example_start example_far_state example_far_frame).
  - apply reachable_init.
  - reflexivity.
  - vm_compute. reflexivity.
Qed.

